(** * Address spacing by output area: the "Building UPRN spacing" notebook

    A shallow embedding of the three computations of the notebook
    [Building UPRN spacing.py]:
    - the adjacency builder (the [neighbours] loop),
    - the point-in-polygon joins, run batch by batch ([building_uprns],
      [uprn_oa2011]),
    - the nearest-neighbour-by-area estimator (the [oa_nn] loop).

    Numbers.  Coordinates are exact rationals and distances are real
    numbers: rounding of the binary floating-point formats is not modelled.
    The two special values that the notebook can produce are kept: the
    infinite distance that the spatial index reports for a missing
    neighbour, and the not-a-number that the mean of an empty array is. *)

From Stdlib Require Import QArith Qreals Reals Lra Lia.
From stdpp Require Import gmap strings list fin_maps sorting pretty.

(** ** Data model *)

(** A planar coordinate (easting, northing). *)
Definition coord : Type := (Q * Q)%type.

(** A row of the UPRN table: columns UPRN, X_COORDINATE, Y_COORDINATE. *)
Record uprn_row : Type := {
  UPRN : Z;
  X_COORDINATE : Q;
  Y_COORDINATE : Q
}.

(** [dask_geopandas.points_from_xy(uprn_df, "X_COORDINATE", "Y_COORDINATE")] *)
Definition points_from_xy (r : uprn_row) : coord :=
  (X_COORDINATE r, Y_COORDINATE r).

(** The geometry library, as far as the notebook uses it: the [disjoint]
    predicate between polygons and the [within] predicate between a point
    and a polygon.  The laws are those of point-set geometry: sharing no
    point is symmetric, and a geometry shares no point with itself exactly
    when it has no point at all. *)
Class Geometry (G : Type) : Type := {
  disjoint : G → G → bool;
  within : coord → G → bool;
  is_empty : G → bool;
  disjoint_sym : ∀ a b, disjoint a b = disjoint b a;
  disjoint_self : ∀ a, disjoint a a = is_empty a
}.

(** A row of the output-area layer: columns OA11CD, geometry. *)
Record oa_row (G : Type) : Type := {
  OA11CD : string;
  geometry : G
}.
Arguments OA11CD {G} _.
Arguments geometry {G} _.

(** A row of the building layer: columns feature_code, geometry. *)
Record building_row (G : Type) : Type := {
  feature_code : Z;
  footprint : G
}.
Arguments feature_code {G} _.
Arguments footprint {G} _.

(** A row of [uprn_oa2011]: the columns of a UPRN row and the code of the
    output area the point falls in
    ([["UPRN", "X_COORDINATE", "Y_COORDINATE", "OA11CD"]]). *)
Record uprn_oa_row : Type := {
  uprn : uprn_row;
  oa11cd : string
}.

(** The value of a float64 cell: a finite number, +inf or NaN. *)
Inductive float64 : Type :=
  | Fin (r : R)
  | PInf
  | NaN.

(** ** Reading a layer in batches *)

(** [read_dataframe(path, skip_features=skip, max_features=max)]: skip the
    first [skip] features of the layer and return at most [max] of the rest. *)
Definition read_dataframe {A} (layer : list A) (skip_features max_features : nat)
  : list A :=
  take max_features (drop skip_features layer).

(** [range(start, stop, step)] for a positive [step]. *)
Definition range (start stop step : nat) : list nat :=
  (λ k, start + k * step) <$> seq 0 ((stop - start + (step - 1)) `div` step).

(** [where="feature_code in (15014, 15024, 15026, 15027, 15028)"] *)
Definition where_building (c : Z) : bool :=
  bool_decide (c ∈ [15014; 15024; 15026; 15027; 15028]%Z).

Section Pipeline.
Context {G : Type} `{Geometry G}.

(** ** Point-in-polygon join *)

(** [dask_geopandas.sjoin(left, right, how="inner", predicate="within")]:
    one output row for each pair of a left row and a right row such that
    the point is within the polygon.  The order of the output rows is not
    part of the library's contract; here they come point by point. *)
Definition sjoin {B} (geom : B → G) (left : list uprn_row) (right : list B)
  : list (uprn_row * B) :=
  p ← left; r ← right;
  if within (points_from_xy p) (geom r) then [(p, r)] else [].

(** The batch of building footprints read at offset [skip]:
    [read_dataframe(filepath, layer="building", skip_features=skip,
    max_features=500_000, where=...)].  The attribute filter is set on the
    layer first, and features are skipped and counted among those that pass
    it. *)
Definition read_buildings (layer : list (building_row G)) (skip : nat)
  : list (building_row G) :=
  read_dataframe (List.filter (λ b, where_building (feature_code b)) layer)
                 skip (500 * 1000).

(** The loop filling [building_uprns], and the final [pandas.concat]. *)
Definition building_uprns (uprn_gdf : list uprn_row)
    (layer : list (building_row G)) : list Z :=
  concat ((λ skip,
             (λ pr, UPRN (fst pr)) <$> sjoin footprint uprn_gdf (read_buildings layer skip))
          <$> range 0 (18 * 1000 * 1000) (500 * 1000)).

(** The same join over the whole building layer in one pass. *)
Definition building_uprns_one_pass (uprn_gdf : list uprn_row)
    (layer : list (building_row G)) : list Z :=
  (λ pr, UPRN (fst pr))
    <$> sjoin footprint uprn_gdf
          (List.filter (λ b, where_building (feature_code b)) layer).

(** The columns kept from a joined row. *)
Definition tag (pr : uprn_row * oa_row G) : uprn_oa_row :=
  {| uprn := fst pr; oa11cd := OA11CD (snd pr) |}.

(** The join of the points with one batch of output areas. *)
Definition sjoin_oa (uprn_gdf : list uprn_row) (oa_2011 : list (oa_row G))
  : list uprn_oa_row :=
  tag <$> sjoin geometry uprn_gdf oa_2011.

(** The loop filling [uprn_oa2011], and the final [pandas.concat]. *)
Definition uprn_oa2011 (uprn_gdf : list uprn_row) (layer : list (oa_row G))
  : list uprn_oa_row :=
  concat ((λ skip, sjoin_oa uprn_gdf (read_dataframe layer skip (20 * 1000)))
          <$> range 0 (200 * 1000) (20 * 1000)).

(** No point of the plane is within two polygons of the set. *)
Definition non_overlapping (polys : list (oa_row G)) : Prop :=
  ∀ i j a b q, polys !! i = Some a → polys !! j = Some b → i ≠ j →
    within q (geometry a) = true → within q (geometry b) = false.

(** ** Adjacency builder *)

(** [oa_2011.loc[~oa_2011.geometry.disjoint(cand), "OA11CD"].to_list()] *)
Definition not_disjoint_codes (oa_2011 : list (oa_row G)) (cand : G)
  : list string :=
  OA11CD <$> List.filter (λ r, negb (disjoint (geometry r) cand)) oa_2011.

(** One turn of the loop: [neighbours[name] = ...]. *)
Definition neighbours_step (oa_2011 : list (oa_row G))
    (acc : gmap string (list string)) (oa : oa_row G)
  : gmap string (list string) :=
  let cand := geometry oa in
  let name := OA11CD oa in
  <[name := not_disjoint_codes oa_2011 cand]> acc.

(** The loop over [oa_2011.iterrows()], starting from the empty dict. *)
Definition neighbours (oa_2011 : list (oa_row G)) : gmap string (list string) :=
  foldl (neighbours_step oa_2011) ∅ oa_2011.

End Pipeline.

(** ** Nearest-neighbour-by-area estimator *)

(** The squared Euclidean distance between two coordinates. *)
Definition sqdist (a b : coord) : Q :=
  ((a.1 - b.1) * (a.1 - b.1) + (a.2 - b.2) * (a.2 - b.2))%Q.

(** The root of a squared distance, as a real number. *)
Definition root (q : Q) : R := sqrt (Q2R q).

(** The Euclidean distance between two coordinates. *)
Definition euclid (a b : coord) : R := root (sqdist a b).

#[global] Instance Qle_dec (x y : Q) : Decision (x <= y)%Q.
Proof.
  destruct (Qle_bool x y) eqn:E.
  - left. by apply Qle_bool_iff.
  - right. intros Hle. apply Qle_bool_iff in Hle. congruence.
Defined.

(** [cKDTree(data)]: the index holds the points it was built from. *)
Definition cKDTree (data : list coord) : list coord := data.

(** [tree.query(x, k)[0]] for one query point: the distances to the [k]
    nearest points of the tree, nearest first.  The index compares squared
    distances and takes the root at the end.  When the tree has fewer than
    [k] points the missing neighbours are reported with an infinite
    distance. *)
Definition query_point (tree : list coord) (x : coord) (k : nat) : list float64 :=
  let d := merge_sort Qle (sqdist x <$> tree) in
  ((λ q, Fin (root q)) <$> take k d) ++ replicate (k - length d) PInf.

(** [tree.query(xs, k)[0]]: one row of [k] distances per query point. *)
Definition query (tree : list coord) (xs : list coord) (k : nat)
  : list (list float64) :=
  (λ x, query_point tree x k) <$> xs.

(** [a[:, j]] *)
Definition column (j : nat) (a : list (list float64)) : list float64 :=
  (λ row, nth j row NaN) <$> a.

(** Addition of float64 values (no negative value occurs here). *)
Definition fadd (a b : float64) : float64 :=
  match a, b with
  | NaN, _ | _, NaN => NaN
  | PInf, _ | _, PInf => PInf
  | Fin x, Fin y => Fin (x + y)
  end.

(** Division of a float64 sum by a positive count. *)
Definition fdiv_count (a : float64) (n : nat) : float64 :=
  match a with
  | Fin x => Fin (x / INR n)
  | PInf => PInf
  | NaN => NaN
  end.

(** [a.mean()]: the sum over the count; the mean of an empty array is NaN. *)
Definition mean (a : list float64) : float64 :=
  match a with
  | [] => NaN
  | _ => fdiv_count (foldr fadd (Fin 0) a) (length a)
  end.

(** The coordinates [df[["X_COORDINATE", "Y_COORDINATE"]].values]. *)
Definition values (df : list uprn_oa_row) : list coord :=
  (λ r, points_from_xy (uprn r)) <$> df.

(** The body of the [oa_nn] loop for one candidate output area. *)
Definition mean_address_distance (uprn_oa2011 : list uprn_oa_row)
    (cand_oa : string) (oas : list string) : float64 :=
  let uprns := filter (λ r, oa11cd r = cand_oa) uprn_oa2011 in
  let test_uprns := filter (λ r, oa11cd r ∈ oas) uprn_oa2011 in
  let tree := cKDTree (values test_uprns) in
  mean (column 1 (query tree (values uprns) 2)).

(** The loop over [neighbours.items()], starting from the empty dict. *)
Definition oa_nn (uprn_oa2011 : list uprn_oa_row)
    (neighbours : gmap string (list string)) : gmap string float64 :=
  map_fold (λ cand_oa oas acc,
              <[cand_oa := mean_address_distance uprn_oa2011 cand_oa oas]> acc)
           ∅ neighbours.

(** ** The estimator's contract, in the words of the specification *)

(** The rows of a table other than the one in position [i]. *)
Definition others {A} (l : list A) (i : nat) : list A :=
  take i l ++ drop (S i) l.

(** The distance from the point in row [i] to its nearest other point among
    the points assigned to a code of [oas]; there is none when no other
    point is assigned to these codes. *)
Definition nearest_other_distance (df : list uprn_oa_row) (oas : list string)
    (i : nat) : option R :=
  match df !! i with
  | None => None
  | Some p =>
      match euclid (points_from_xy (uprn p))
              <$> values (filter (λ r, oa11cd r ∈ oas) (others df i)) with
      | [] => None
      | d :: ds => Some (foldr Rmin d ds)
      end
  end.

(** The positions of the rows assigned to the unit [u]. *)
Definition assigned (df : list uprn_oa_row) (u : string) : list nat :=
  filter (λ i, oa11cd <$> df !! i = Some u) (seq 0 (length df)).

(** The mean, over the points assigned to [u], of the distance to the
    nearest other point of the neighbourhood [oas]; it is defined when [u]
    has a point and each of its points has another point to pair with. *)
Definition mean_nearest_other (df : list uprn_oa_row) (u : string)
    (oas : list string) : option R :=
  match assigned df u with
  | [] => None
  | idx =>
      ds ← mapM (nearest_other_distance df oas) idx;
      Some (foldr Rplus 0%R ds / INR (length ds))%R
  end.

(** ** A concrete geometry: closed axis-parallel rectangles *)

Module Box.

Record box : Type := { xmin : Q; ymin : Q; xmax : Q; ymax : Q }.

Definition Qltb (a b : Q) : bool := negb (Qle_bool b a).

(** A rectangle has no point when an upper bound is below the lower one. *)
Definition box_is_empty (b : box) : bool :=
  Qltb (xmax b) (xmin b) || Qltb (ymax b) (ymin b).

(** Two rectangles share no point. *)
Definition box_disjoint (a b : box) : bool :=
  box_is_empty a || box_is_empty b
  || Qltb (xmax a) (xmin b) || Qltb (xmax b) (xmin a)
  || Qltb (ymax a) (ymin b) || Qltb (ymax b) (ymin a).

(** The point is in the interior of the rectangle. *)
Definition box_within (p : coord) (b : box) : bool :=
  Qltb (xmin b) p.1 && Qltb p.1 (xmax b)
  && Qltb (ymin b) p.2 && Qltb p.2 (ymax b).

#[global] Instance box_geometry : Geometry box.
Proof.
  refine {| disjoint := box_disjoint; within := box_within;
            is_empty := box_is_empty |}.
  - intros a b. unfold box_disjoint.
    destruct (box_is_empty a), (box_is_empty b),
      (Qltb (xmax a) (xmin b)), (Qltb (xmax b) (xmin a)),
      (Qltb (ymax a) (ymin b)), (Qltb (ymax b) (ymin a)); reflexivity.
  - intros a. unfold box_disjoint, box_is_empty.
    destruct (Qltb (xmax a) (xmin a)), (Qltb (ymax a) (ymin a)); reflexivity.
Defined.

(** The unit square whose lower left corner is [(x, 0)]. *)
Definition unit_square (x : Z) : box :=
  {| xmin := inject_Z x; ymin := 0; xmax := inject_Z (x + 1); ymax := 1 |}.

(** Three unit squares in a row, each sharing an edge with the next. *)
Definition three_squares : list (oa_row box) :=
  [ {| OA11CD := "E00000001"; geometry := unit_square 0 |};
    {| OA11CD := "E00000002"; geometry := unit_square 1 |};
    {| OA11CD := "E00000003"; geometry := unit_square 2 |} ].

(** The codes of the three squares. *)
Definition three_codes : list string :=
  ["E00000001"; "E00000002"; "E00000003"].

Definition pt (u : Z) (x y : Q) : uprn_row :=
  {| UPRN := u; X_COORDINATE := x; Y_COORDINATE := y |}.

(** One point in each of the three squares. *)
Definition three_points : list uprn_row :=
  [pt 1 (1 # 2) (1 # 2); pt 2 (3 # 2) (1 # 2); pt 3 (9 # 4) (3 # 4)].

(** The three points, each with the code of its square. *)
Definition three_tagged : list uprn_oa_row :=
  [ {| uprn := pt 1 (1 # 2) (1 # 2); oa11cd := "E00000001" |};
    {| uprn := pt 2 (3 # 2) (1 # 2); oa11cd := "E00000002" |};
    {| uprn := pt 3 (9 # 4) (3 # 4); oa11cd := "E00000003" |} ].

(** A unit with a single point and no neighbour but itself. *)
Definition lone_point : list uprn_oa_row :=
  [ {| uprn := pt 1 (1 # 2) (1 # 2); oa11cd := "E00000001" |} ].

Definition lone_neighbours : gmap string (list string) :=
  {[ "E00000001" := ["E00000001"] ]}.

(** Two addresses at one delivery point. *)
Definition coincident_pair : list uprn_oa_row :=
  [ {| uprn := pt 1 (1 # 2) (1 # 2); oa11cd := "E00000001" |};
    {| uprn := pt 2 (2 # 4) (1 # 2); oa11cd := "E00000001" |} ].

(** A row of 200,001 adjoining unit squares, with codes "0", "1", ... *)
Definition long_row : list (oa_row box) :=
  (λ k, {| OA11CD := pretty k; geometry := unit_square (Z.of_nat k) |})
    <$> seq 0 (200 * 1000 + 1).

(** A point in the last square of the row. *)
Definition last_point : uprn_row := pt 1 (400001 # 2) (1 # 2).

(** A few building footprints, one of them a glasshouse (code 15016). *)
Definition some_buildings : list (building_row box) :=
  [ {| feature_code := 15014; footprint := unit_square 0 |};
    {| feature_code := 15016; footprint := unit_square 1 |};
    {| feature_code := 15026; footprint := unit_square 2 |} ].

End Box.

(** ** The rest of the notebook *)

(** [uprn_gdf.loc[lambda df: df["UPRN"].isin(uprns["UPRN"]), :]]: the rows
    of the UPRN table whose UPRN occurs in the saved list. *)
Definition isin_uprns (uprn_gdf : list uprn_row) (uprns : list Z)
  : list uprn_row :=
  filter (λ p, UPRN p ∈ uprns) uprn_gdf.

Section Buildings.
Context {G : Type} `{Geometry G}.

(** The UPRN table after the first loop and the filter that follows it: the
    table is filtered by the list the loop produced. *)
Definition uprn_gdf_buildings (uprn_gdf : list uprn_row)
    (layer : list (building_row G)) : list uprn_row :=
  isin_uprns uprn_gdf (building_uprns uprn_gdf layer).

(** Every point of the table is within a polygon of the layer. *)
Definition covered (uprn_gdf : list uprn_row) (polys : list (oa_row G)) : Prop :=
  ∀ p, p ∈ uprn_gdf →
    ∃ r, r ∈ polys ∧ within (points_from_xy p) (geometry r) = true.

End Buildings.

(** The order of float64 values (NaN compares with nothing). *)
Definition fle (a b : float64) : Prop :=
  match a, b with
  | Fin x, Fin y => (x <= y)%R
  | Fin _, PInf | PInf, PInf => True
  | _, _ => False
  end.

(** A float64 value that is not below zero: a finite number that is not
    negative, or +inf. *)
Definition not_negative (v : float64) : Prop :=
  match v with
  | Fin x => (0 <= x)%R
  | PInf => True
  | NaN => False
  end.

(** Two rows are at the same coordinates. *)
Definition coincident (p q : uprn_oa_row) : Prop :=
  (X_COORDINATE (uprn p) == X_COORDINATE (uprn q))%Q ∧
  (Y_COORDINATE (uprn p) == Y_COORDINATE (uprn q))%Q.


(** [pandas.Series(oa_nn, name="Mean Nearest Neighbour").reset_index()
    .rename(columns={"index": "OA11CD"})]: one row per key of the dict. *)
Definition nns (oa_nn : gmap string float64) : list (string * float64) :=
  map_to_list oa_nn.

(** A row of [ruc11_oa], with the columns the plots use.  A value outside
    the categories of a categorical column is null. *)
Record ruc_row : Type := {
  Output_Area_2011_Code : string;
  RUC_2011_10_fold : option string;
  RUC_2011_2_fold : option string
}.

(** [ruc11_oa.merge(nns, left_on="Output Area 2011 Code", right_on="OA11CD")]:
    the inner join on the code, in the order of the left rows. *)
Definition merge (ruc11_oa : list ruc_row) (nns : list (string * float64))
  : list (ruc_row * float64) :=
  l ← ruc11_oa; r ← nns;
  if decide (Output_Area_2011_Code l = r.1) then [(l, r.2)] else [].

(** [.loc[lambda df: df[col] == setting, "Mean Nearest Neighbour"]] *)
Definition loc_setting (col : ruc_row → option string) (setting : string)
    (df : list (ruc_row * float64)) : list float64 :=
  snd <$> filter (λ row, col row.1 = Some setting) df.

(** [.fillna(x)] *)
Definition fillna (x : R) (a : list float64) : list float64 :=
  (λ v, match v with NaN => Fin x | _ => v end) <$> a.

(** The dataset handed to [gaussian_kde] for one setting. *)
Definition kde_dataset (ruc11_oa : list ruc_row) (oa_nn : gmap string float64)
    (col : ruc_row → option string) (setting : string) : list float64 :=
  fillna 0 (loc_setting col setting (merge ruc11_oa (nns oa_nn))).

(** A null cell. *)
Definition is_nan (v : float64) : bool :=
  match v with NaN => true | _ => false end.

(** [.groupby(col, observed=False)["Mean Nearest Neighbour"].mean()], for the
    group of one setting: the mean of the values of the group that are not
    null (nulls are skipped; a group without such a value gets NaN). *)
Definition group_mean (ruc11_oa : list ruc_row) (oa_nn : gmap string float64)
    (col : ruc_row → option string) (setting : string) : float64 :=
  mean (List.filter (λ v, negb (is_nan v))
          (loc_setting col setting (merge ruc11_oa (nns oa_nn)))).

(** The non-breaking space of the category names in the lookup sheet. *)
Definition nbsp : string := String (Ascii.ascii_of_nat 160) EmptyString.

(** The categories of "Rural Urban Classification 2011 (10 fold)" as read. *)
Definition categories_10_fold : list string :=
  [ "Urban major conurbation" +:+ nbsp;
    "Urban minor conurbation";
    "Urban city and town" +:+ nbsp +:+ nbsp;
    "Urban city and town in a sparse setting";
    "Rural town and fringe" +:+ nbsp;
    "Rural town and fringe" +:+ nbsp +:+ "in a sparse setting" +:+ nbsp;
    "Rural village";
    "Rural village" +:+ nbsp +:+ "in a sparse setting";
    "Rural hamlets and isolated dwellings";
    "Rural hamlets and isolated dwellings in a sparse setting" ].

(** The dict given to [.cat.rename_categories]. *)
Definition renames : gmap string string :=
  list_to_map
    [ ("Urban major conurbation" +:+ nbsp, "Urban major conurbation");
      ("Urban city and town" +:+ nbsp +:+ nbsp, "Urban city and town");
      ("Rural town and fringe" +:+ nbsp, "Rural town and fringe");
      ("Rural village" +:+ nbsp +:+ "in a sparse setting",
       "Rural village in a sparse setting");
      ("Rural town and fringe" +:+ nbsp +:+ "in a sparse setting" +:+ nbsp,
       "Rural town and fringe in a sparse setting") ].

(** [.cat.rename_categories(renames)]: a category that is a key of the dict
    gets its new name, the others keep theirs. *)
Definition rename_categories (m : gmap string string) (c : string) : string :=
  default c (m !! c).

(** The keys of the ten-colour palette, in order. *)
Definition colours_10 : list string :=
  [ "Urban major conurbation";
    "Urban minor conurbation";
    "Urban city and town";
    "Urban city and town in a sparse setting";
    "Rural town and fringe";
    "Rural town and fringe in a sparse setting";
    "Rural village";
    "Rural village in a sparse setting";
    "Rural hamlets and isolated dwellings";
    "Rural hamlets and isolated dwellings in a sparse setting" ].

(** The dict [lookup] that collapses the urban classes. *)
Definition lookup : gmap string string :=
  list_to_map
    [ ("Urban major conurbation", "Urban");
      ("Urban minor conurbation", "Urban");
      ("Urban city and town", "Urban");
      ("Urban city and town in a sparse setting", "Urban");
      ("Rural town and fringe", "Rural town and fringe");
      ("Rural town and fringe in a sparse setting",
       "Rural town and fringe in a sparse setting");
      ("Rural village", "Rural village");
      ("Rural village in a sparse setting", "Rural village in a sparse setting");
      ("Rural hamlets and isolated dwellings",
       "Rural hamlets and isolated dwellings");
      ("Rural hamlets and isolated dwellings in a sparse setting",
       "Rural hamlets and isolated dwellings in a sparse setting") ].

(** [ruc11_oa["condensed_ru11"] =
     ruc11_oa["Rural Urban Classification 2011 (10 fold)"].map(lookup)]:
    a value that is not a key of the dict becomes null. *)
Definition condensed_ru11 (r : ruc_row) : option string :=
  RUC_2011_10_fold r ≫= (lookup !!.).

(** The keys of the seven-colour palette, in order. *)
Definition colours_7 : list string :=
  [ "Urban";
    "Rural town and fringe";
    "Rural town and fringe in a sparse setting";
    "Rural village";
    "Rural village in a sparse setting";
    "Rural hamlets and isolated dwellings";
    "Rural hamlets and isolated dwellings in a sparse setting" ].

(** ** Sample tables *)

(** Two rows with the same code and different polygons, then another unit. *)
Definition repeated_code_layer : list (oa_row Box.box) :=
  [ {| OA11CD := "E00000001"; geometry := Box.unit_square 0 |};
    {| OA11CD := "E00000001"; geometry := Box.unit_square 2 |};
    {| OA11CD := "E00000002"; geometry := Box.unit_square 1 |} ].

(** The classification of the three squares. *)
Definition three_ruc : list ruc_row :=
  [ {| Output_Area_2011_Code := "E00000001";
       RUC_2011_10_fold := Some "Urban city and town";
       RUC_2011_2_fold := Some "Urban" |};
    {| Output_Area_2011_Code := "E00000002";
       RUC_2011_10_fold := Some "Rural village";
       RUC_2011_2_fold := Some "Rural" |};
    {| Output_Area_2011_Code := "E00000003";
       RUC_2011_10_fold := Some "Urban minor conurbation";
       RUC_2011_2_fold := Some "Urban" |} ].

(** * Properties *)

(** ** Adjacency builder *)

Section Adjacency.
Context {G : Type} `{Geometry G}.
Implicit Types (rows : list (oa_row G)) (acc : gmap string (list string)).

Lemma elem_of_not_disjoint_codes (oa_2011 : list (oa_row G)) cand c :
  c ∈ not_disjoint_codes oa_2011 cand ↔
  ∃ r, r ∈ oa_2011 ∧ OA11CD r = c ∧ disjoint (geometry r) cand = false.
Proof.
  unfold not_disjoint_codes. rewrite list_elem_of_fmap. split.
  - intros (r & -> & Hr). apply list_elem_of_In, filter_In in Hr as [Hin Hd].
    exists r. rewrite list_elem_of_In. by apply negb_true_iff in Hd.
  - intros (r & Hin & <- & Hd). exists r. split; [done|].
    apply list_elem_of_In, filter_In. rewrite <- list_elem_of_In.
    by rewrite Hd.
Qed.

(** What the loop leaves under a key: the list computed from the last row
    that carries this code, or the initial entry when no row does. *)
Lemma neighbours_loop_lookup (oa_2011 : list (oa_row G)) rows acc c :
  foldl (neighbours_step oa_2011) acc rows !! c =
  match last (filter (λ r, OA11CD r = c) rows) with
  | Some r => Some (not_disjoint_codes oa_2011 (geometry r))
  | None => acc !! c
  end.
Proof.
  revert acc. induction rows as [|r rows IH]; intros acc; [done|].
  simpl. rewrite IH. unfold neighbours_step.
  destruct (decide (OA11CD r = c)) as [Heq|Hne].
  - rewrite filter_cons_True by done. rewrite last_cons.
    destruct (last (filter _ rows)); [done|].
    by rewrite Heq, lookup_insert_eq.
  - rewrite filter_cons_False by done.
    destruct (last (filter _ rows)); [done|].
    by rewrite lookup_insert_ne.
Qed.

Lemma neighbours_lookup_elem (oa_2011 : list (oa_row G)) a :
  a ∈ oa_2011 →
  ∃ r, r ∈ oa_2011 ∧ OA11CD r = OA11CD a ∧
       neighbours oa_2011 !! OA11CD a
         = Some (not_disjoint_codes oa_2011 (geometry r)).
Proof.
  intros Ha. unfold neighbours. rewrite neighbours_loop_lookup.
  destruct (last (filter (λ r, OA11CD r = OA11CD a) oa_2011)) as [r|] eqn:E.
  - exists r. apply last_Some in E as [l' E].
    assert (r ∈ filter (λ r, OA11CD r = OA11CD a) oa_2011) as Hr.
    { rewrite E. apply elem_of_app. right. by apply list_elem_of_singleton. }
    apply list_elem_of_filter in Hr as [? ?]. done.
  - apply last_None in E.
    assert (a ∈ filter (λ r, OA11CD r = OA11CD a) oa_2011) as Hr
      by by apply list_elem_of_filter.
    rewrite E in Hr. by apply not_elem_of_nil in Hr.
Qed.

Lemma unique_code (oa_2011 : list (oa_row G)) a b :
  NoDup (OA11CD <$> oa_2011) → a ∈ oa_2011 → b ∈ oa_2011 →
  OA11CD a = OA11CD b → a = b.
Proof.
  intros Hnd Ha Hb Heq.
  apply list_elem_of_lookup in Ha as [i Hi], Hb as [j Hj].
  assert (i = j) as ->.
  { eapply NoDup_lookup; [exact Hnd| |].
    - by rewrite list_lookup_fmap, Hi.
    - by rewrite list_lookup_fmap, Hj, Heq. }
  congruence.
Qed.

Lemma neighbours_lookup_unique (oa_2011 : list (oa_row G)) a :
  NoDup (OA11CD <$> oa_2011) → a ∈ oa_2011 →
  neighbours oa_2011 !! OA11CD a
    = Some (not_disjoint_codes oa_2011 (geometry a)).
Proof.
  intros Hnd Ha. destruct (neighbours_lookup_elem oa_2011 a Ha) as (r & Hr & Hc & ->).
  by rewrite (unique_code oa_2011 r a Hnd Hr Ha Hc).
Qed.

(** C4. With unique codes, the adjacency relation the builder computes is
    symmetric: the code of [a] is in the neighbour list of [b] exactly when
    the code of [b] is in the neighbour list of [a]. *)
Theorem neighbours_symmetric (oa_2011 : list (oa_row G)) a b :
  NoDup (OA11CD <$> oa_2011) → a ∈ oa_2011 → b ∈ oa_2011 →
  ∃ la lb,
    neighbours oa_2011 !! OA11CD a = Some la ∧
    neighbours oa_2011 !! OA11CD b = Some lb ∧
    (OA11CD a ∈ lb ↔ OA11CD b ∈ la).
Proof.
  intros Hnd Ha Hb.
  exists (not_disjoint_codes oa_2011 (geometry a)),
         (not_disjoint_codes oa_2011 (geometry b)).
  split; [by apply neighbours_lookup_unique|].
  split; [by apply neighbours_lookup_unique|].
  rewrite !elem_of_not_disjoint_codes. split.
  - intros (r & Hr & Hc & Hd).
    rewrite (unique_code oa_2011 r a Hnd Hr Ha Hc) in Hd.
    exists b. by rewrite disjoint_sym.
  - intros (r & Hr & Hc & Hd).
    rewrite (unique_code oa_2011 r b Hnd Hr Hb Hc) in Hd.
    exists a. by rewrite disjoint_sym.
Qed.

(** C5. The builder puts the code of every unit in that unit's own
    neighbour list, for a layer whose polygons have points. *)
Theorem neighbours_reflexive (oa_2011 : list (oa_row G)) a :
  Forall (λ r, is_empty (geometry r) = false) oa_2011 → a ∈ oa_2011 →
  ∃ la, neighbours oa_2011 !! OA11CD a = Some la ∧ OA11CD a ∈ la.
Proof.
  intros Hne Ha.
  destruct (neighbours_lookup_elem oa_2011 a Ha) as (r & Hr & Hc & Hl).
  eexists. split; [exact Hl|].
  apply elem_of_not_disjoint_codes. exists r. split; [done|]. split; [done|].
  rewrite disjoint_self. by eapply (proj1 (Forall_forall _ _) Hne).
Qed.

End Adjacency.

(** ** Point-in-polygon join *)

(** Reading a layer batch by batch and joining each batch: what the pattern
    computes, for any join that distributes over the rows of the layer. *)
Section Batches.
Context {A B : Type} (join : list A → list B).
Hypothesis join_nil : join [] = [].
Hypothesis join_app : ∀ l k, join (l ++ k) ≡ₚ join l ++ join k.

Lemma range_from_0 (n step : nat) :
  0 < step → range 0 (n * step) step = (λ k, k * step) <$> seq 0 n.
Proof.
  intros Hstep. unfold range.
  replace ((n * step - 0 + (step - 1)) `div` step) with n; [done|].
  rewrite Nat.sub_0_r, Nat.div_add_l by lia.
  rewrite Nat.div_small by lia. lia.
Qed.

Lemma batches_join (layer : list A) (n step : nat) :
  concat ((λ skip, join (read_dataframe layer skip step))
            <$> ((λ k, k * step) <$> seq 0 n))
  ≡ₚ join (take (n * step) layer).
Proof.
  induction n as [|n IH].
  - simpl. by rewrite take_0, join_nil.
  - rewrite seq_S, !fmap_app, concat_app, IH. simpl.
    rewrite app_nil_r. unfold read_dataframe.
    rewrite <- join_app, take_take_drop.
    by replace (n * step + step) with (step + n * step) by lia.
Qed.

End Batches.

Section Join.
Context {G : Type} `{Geometry G}.

Lemma elem_of_sjoin {B} (geom : B → G) (left : list uprn_row) (right : list B) p r :
  (p, r) ∈ sjoin geom left right ↔
  p ∈ left ∧ r ∈ right ∧ within (points_from_xy p) (geom r) = true.
Proof.
  unfold sjoin. rewrite list_elem_of_bind. split.
  - intros (p' & Hin & Hp). apply list_elem_of_bind in Hin as (r' & Hin & Hr).
    destruct (within (points_from_xy p') (geom r')) eqn:E.
    + apply list_elem_of_singleton in Hin. by simplify_eq.
    + by apply not_elem_of_nil in Hin.
  - intros (Hp & Hr & Hw). exists p. split; [|done].
    apply list_elem_of_bind. exists r. split; [|done].
    rewrite Hw. by apply list_elem_of_singleton.
Qed.

Lemma sjoin_nil_r {B} (geom : B → G) (left : list uprn_row) :
  sjoin geom left [] = [].
Proof. unfold sjoin. induction left as [|p l IH]; [done|]. by rewrite bind_cons, IH. Qed.

Lemma sjoin_app_r {B} (geom : B → G) (left : list uprn_row) (l k : list B) :
  sjoin geom left (l ++ k) ≡ₚ sjoin geom left l ++ sjoin geom left k.
Proof.
  unfold sjoin. induction left as [|p left IH]; [done|].
  rewrite !bind_cons, IH, bind_app.
  rewrite <- !app_assoc. apply Permutation_app_head.
  rewrite !app_assoc. apply Permutation_app_tail, Permutation_app_comm.
Qed.

Lemma sjoin_oa_app_r (uprn_gdf : list uprn_row) (l k : list (oa_row G)) :
  sjoin_oa uprn_gdf (l ++ k) ≡ₚ sjoin_oa uprn_gdf l ++ sjoin_oa uprn_gdf k.
Proof. unfold sjoin_oa. by rewrite sjoin_app_r, fmap_app. Qed.

Lemma elem_of_sjoin_oa (uprn_gdf : list uprn_row) (oa_2011 : list (oa_row G)) t :
  t ∈ sjoin_oa uprn_gdf oa_2011 ↔
  uprn t ∈ uprn_gdf ∧
  ∃ r, r ∈ oa_2011 ∧ OA11CD r = oa11cd t ∧
       within (points_from_xy (uprn t)) (geometry r) = true.
Proof.
  unfold sjoin_oa. rewrite list_elem_of_fmap. split.
  - intros ([p r] & -> & Hin). apply elem_of_sjoin in Hin as (? & ? & ?).
    split; [done|]. by exists r.
  - intros (Hp & r & Hr & Hc & Hw). exists (uprn t, r). split.
    + destruct t. unfold tag. simpl in *. by rewrite Hc.
    + by apply elem_of_sjoin.
Qed.

(** C3. The join returns exactly the points that are within some polygon,
    each with the code of a polygon it is within; a point within no polygon
    is absent; and when the polygons do not overlap no point is given two
    different codes. *)
Theorem sjoin_oa_assignment (uprn_gdf : list uprn_row) (oa_2011 : list (oa_row G)) :
  (∀ t, t ∈ sjoin_oa uprn_gdf oa_2011 ↔
        uprn t ∈ uprn_gdf ∧
        ∃ r, r ∈ oa_2011 ∧ OA11CD r = oa11cd t ∧
             within (points_from_xy (uprn t)) (geometry r) = true) ∧
  (∀ p, (∀ r, r ∈ oa_2011 → within (points_from_xy p) (geometry r) = false) →
        ∀ c, {| uprn := p; oa11cd := c |} ∉ sjoin_oa uprn_gdf oa_2011) ∧
  (non_overlapping oa_2011 →
   ∀ p c1 c2,
     {| uprn := p; oa11cd := c1 |} ∈ sjoin_oa uprn_gdf oa_2011 →
     {| uprn := p; oa11cd := c2 |} ∈ sjoin_oa uprn_gdf oa_2011 →
     c1 = c2).
Proof.
  split; [apply elem_of_sjoin_oa|]. split.
  - intros p Hout c Hin. apply elem_of_sjoin_oa in Hin as (_ & r & Hr & _ & Hw).
    simpl in Hw. rewrite (Hout r Hr) in Hw. discriminate.
  - intros Hno p c1 c2 H1 H2.
    apply elem_of_sjoin_oa in H1 as (_ & r1 & Hr1 & Hc1 & Hw1).
    apply elem_of_sjoin_oa in H2 as (_ & r2 & Hr2 & Hc2 & Hw2).
    simpl in *. subst c1 c2.
    apply list_elem_of_lookup in Hr1 as [i Hi], Hr2 as [j Hj].
    destruct (decide (i = j)) as [->|Hij]; [congruence|].
    rewrite (Hno i j r1 r2 _ Hi Hj Hij Hw1) in Hw2. discriminate.
Qed.

Lemma twenty_thousand_batches : 200 * 1000 = 10 * (20 * 1000).
Proof. lia. Qed.

Lemma half_million_batches : 18 * 1000 * 1000 = 36 * (500 * 1000).
Proof. lia. Qed.

(** What the [uprn_oa2011] loop computes: the join with the first 200,000
    features of the layer. *)
Lemma uprn_oa2011_take (uprn_gdf : list uprn_row) (layer : list (oa_row G)) :
  uprn_oa2011 uprn_gdf layer ≡ₚ sjoin_oa uprn_gdf (take (200 * 1000) layer).
Proof.
  unfold uprn_oa2011. rewrite twenty_thousand_batches.
  rewrite range_from_0 by lia.
  apply (batches_join (sjoin_oa uprn_gdf)).
  - unfold sjoin_oa. by rewrite sjoin_nil_r.
  - apply sjoin_oa_app_r.
Qed.

(** What the [building_uprns] loop computes: the join with the first
    18,000,000 building footprints that pass the filter. *)
Lemma building_uprns_take (uprn_gdf : list uprn_row) (layer : list (building_row G)) :
  building_uprns uprn_gdf layer ≡ₚ
  (λ pr, UPRN (fst pr))
    <$> sjoin footprint uprn_gdf
          (take (18 * 1000 * 1000)
                (List.filter (λ b, where_building (feature_code b)) layer)).
Proof.
  unfold building_uprns, read_buildings. rewrite half_million_batches.
  rewrite range_from_0 by lia.
  apply (batches_join (λ l, (λ pr, UPRN (fst pr)) <$> sjoin footprint uprn_gdf l)).
  - by rewrite sjoin_nil_r.
  - intros l k. by rewrite sjoin_app_r, fmap_app.
Qed.

(** C8, as amended.  For a layer of at most 200,000 output areas, and a
    building layer with at most 18,000,000 footprints that pass the filter,
    joining batch by batch and concatenating gives the rows of the join over
    the whole layer, up to their order. *)
Theorem batched_join_same_rows (uprn_gdf : list uprn_row)
    (oa_layer : list (oa_row G)) (building_layer : list (building_row G)) :
  (length oa_layer ≤ 200 * 1000 →
   uprn_oa2011 uprn_gdf oa_layer ≡ₚ sjoin_oa uprn_gdf oa_layer) ∧
  (length (List.filter (λ b, where_building (feature_code b)) building_layer)
     ≤ 18 * 1000 * 1000 →
   building_uprns uprn_gdf building_layer
     ≡ₚ building_uprns_one_pass uprn_gdf building_layer).
Proof.
  split; intros Hlen.
  - rewrite uprn_oa2011_take. by rewrite take_ge.
  - rewrite building_uprns_take. unfold building_uprns_one_pass.
    by rewrite take_ge.
Qed.

End Join.

(** ** Nearest-neighbour-by-area estimator *)

(** *** Order facts *)

#[global] Instance Qle_total : Total Qle.
Proof.
  intros x y. destruct (Qlt_le_dec x y) as [Hlt|Hle]; [left|right]; [|done].
  by apply Qlt_le_weak.
Qed.

#[global] Instance Qle_transitive : Transitive Qle.
Proof. intros x y z. apply Qle_trans. Qed.

#[global] Instance Rle_transitive : Transitive Rle.
Proof. intros x y z. apply Rle_trans. Qed.

#[global] Instance Rle_antisymm : AntiSymm (=) Rle.
Proof. intros x y. apply Rle_antisym. Qed.

Lemma root_mono (x y : Q) : (x <= y)%Q → (root x <= root y)%R.
Proof. intros Hle. apply sqrt_le_1_alt. by apply Qle_Rle. Qed.

Lemma root_proper (x y : Q) : (x == y)%Q → root x = root y.
Proof. intros Heq. unfold root. by rewrite (Qeq_eqR _ _ Heq). Qed.

Lemma root_0 : root 0 = 0%R.
Proof. unfold root. by rewrite RMicromega.Q2R_0, sqrt_0. Qed.

Lemma sqdist_self (a : coord) : (sqdist a a == 0)%Q.
Proof. unfold sqdist. ring. Qed.

Lemma Qsquare_nonneg (a : Q) : (0 <= a * a)%Q.
Proof.
  destruct (Qlt_le_dec a 0) as [Hneg|Hpos].
  - assert (a * a == (- a) * (- a))%Q as -> by ring.
    apply Qmult_le_0_compat; apply (Qopp_le_compat a 0), Qlt_le_weak, Hneg.
  - by apply Qmult_le_0_compat.
Qed.

Lemma sqdist_nonneg (a b : coord) : (0 <= sqdist a b)%Q.
Proof.
  unfold sqdist. apply (Qle_trans _ (0 + 0)); [done|].
  apply Qplus_le_compat; apply Qsquare_nonneg.
Qed.

Lemma sqdist_coincident (a b : coord) :
  (a.1 == b.1)%Q → (a.2 == b.2)%Q → (sqdist a b == 0)%Q.
Proof. intros H1 H2. unfold sqdist. rewrite H1, H2. ring. Qed.

(** *** The least element of a list of reals *)

Lemma foldr_Rmin_elem (d : R) (ds : list R) : foldr Rmin d ds ∈ d :: ds.
Proof.
  induction ds as [|e ds IH]; simpl; [by apply list_elem_of_singleton|].
  unfold Rmin at 1. destruct (Rle_dec e (foldr Rmin d ds)).
  - apply elem_of_cons. right. apply elem_of_cons. by left.
  - apply elem_of_cons in IH as [->|IH].
    + apply elem_of_cons. by left.
    + apply elem_of_cons. right. apply elem_of_cons. by right.
Qed.

Lemma foldr_Rmin_least (d : R) (ds : list R) (x : R) :
  x ∈ d :: ds → (∀ y, y ∈ d :: ds → (x <= y)%R) → foldr Rmin d ds = x.
Proof.
  intros Hin Hle. apply Rle_antisym.
  - clear Hle. induction ds as [|e ds IH]; simpl.
    + apply list_elem_of_singleton in Hin as ->. apply Rle_refl.
    + apply elem_of_cons in Hin as [->|Hin].
      * etrans; [apply Rmin_r|]. apply IH, elem_of_cons. by left.
      * apply elem_of_cons in Hin as [->|Hin]; [apply Rmin_l|].
        etrans; [apply Rmin_r|]. apply IH, elem_of_cons. by right.
  - apply Hle, foldr_Rmin_elem.
Qed.

(** *** The second column of a query with k = 2 *)

Lemma length_merge_sort {A} (R : relation A) `{∀ x y, Decision (R x y)} (l : list A) :
  length (merge_sort R l) = length l.
Proof. by rewrite merge_sort_Permutation. Qed.

Lemma query_point_second (tree : list coord) (x : coord) :
  nth 1 (query_point tree x 2) NaN =
  match merge_sort Qle (sqdist x <$> tree) with
  | _ :: b :: _ => Fin (root b)
  | _ => PInf
  end.
Proof.
  unfold query_point.
  destruct (merge_sort Qle (sqdist x <$> tree)) as [|a [|b rest]]; done.
Qed.

(** With fewer than two points in the tree the second neighbour is missing;
    with two or more it is at a finite distance. *)
Lemma query_point_second_cases (tree : list coord) (x : coord) :
  (length tree < 2 ∧ nth 1 (query_point tree x 2) NaN = PInf) ∨
  (2 ≤ length tree ∧ ∃ d, nth 1 (query_point tree x 2) NaN = Fin d).
Proof.
  rewrite query_point_second.
  pose proof (length_merge_sort Qle (sqdist x <$> tree)) as Hlen.
  rewrite length_fmap in Hlen.
  destruct (merge_sort Qle (sqdist x <$> tree)) as [|a [|b rest]]; simpl in Hlen.
  - left. split; [lia|done].
  - left. split; [lia|done].
  - right. split; [lia|]. by eexists.
Qed.

(** In a sorted arrangement of a list that holds a least element [z], the
    second entry is the least of the other entries. *)
Lemma second_of_sorted (s l1 l2 : list Q) (z : Q) :
  s ≡ₚ l1 ++ z :: l2 → Sorted Qle s →
  (∀ q, q ∈ l1 ++ l2 → (z <= q)%Q) →
  match s with _ :: b :: _ => Fin (root b) | _ => PInf end =
  match root <$> (l1 ++ l2) with
  | [] => PInf
  | d :: ds => Fin (foldr Rmin d ds)
  end.
Proof.
  intros Hperm Hsorted Hz.
  assert (root <$> s ≡ₚ root z :: (root <$> (l1 ++ l2))) as Hperm'.
  { rewrite Hperm, <- Permutation_middle. by rewrite fmap_cons. }
  assert (StronglySorted Rle (root <$> s)) as Hss.
  { apply Sorted_StronglySorted; [apply _|].
    eapply Sorted_fmap; [|exact Hsorted]. apply root_mono. }
  destruct s as [|a t].
  { by apply Permutation_nil_cons in Hperm'. }
  rewrite fmap_cons in Hperm', Hss.
  apply StronglySorted_inv in Hss as [Hss Ha].
  assert (root a = root z) as Haz.
  { apply Rle_antisym.
    - assert (root z ∈ root a :: (root <$> t)) as Hin.
      { rewrite Hperm'. apply elem_of_cons. by left. }
      apply elem_of_cons in Hin as [->|Hin]; [apply Rle_refl|].
      by apply (proj1 (Forall_forall _ _) Ha).
    - assert (root a ∈ root z :: (root <$> (l1 ++ l2))) as Hin.
      { rewrite <- Hperm'. apply elem_of_cons. by left. }
      apply elem_of_cons in Hin as [->|Hin]; [apply Rle_refl|].
      apply list_elem_of_fmap in Hin as (q & -> & Hq).
      by apply root_mono, Hz. }
  rewrite Haz in Hperm'. apply Permutation_cons_inv in Hperm'.
  destruct t as [|b rest].
  - symmetry in Hperm'. apply Permutation_nil_r in Hperm'. by rewrite Hperm'.
  - rewrite fmap_cons in Hperm', Hss.
    apply StronglySorted_inv in Hss as [_ Hb].
    destruct (root <$> (l1 ++ l2)) as [|d ds].
    { symmetry in Hperm'. by apply Permutation_nil_cons in Hperm'. }
    f_equal. symmetry. apply foldr_Rmin_least.
    + rewrite <- Hperm'. apply elem_of_cons. by left.
    + intros y Hy. rewrite <- Hperm' in Hy.
      apply elem_of_cons in Hy as [->|Hy]; [apply Rle_refl|].
      by apply (proj1 (Forall_forall _ _) Hb).
Qed.

(** *** From rows to positions *)

Lemma fmap_filter_positions {A B} (P : A → Prop) `{∀ x, Decision (P x)}
    (Q : nat → Prop) `{∀ i, Decision (Q i)}
    (f : A → B) (g : nat → B) (l : list A) (n : nat) :
  (∀ k x, l !! k = Some x → (P x ↔ Q (n + k)) ∧ (P x → f x = g (n + k))) →
  f <$> filter P l = g <$> filter Q (seq n (length l)).
Proof.
  revert n. induction l as [|x l IH]; intros n Hl; [done|].
  simpl. destruct (Hl 0 x eq_refl) as [HPQ Hfg].
  rewrite Nat.add_0_r in HPQ, Hfg.
  assert (f <$> filter P l = g <$> filter Q (seq (S n) (length l))) as IH'.
  { apply IH. intros k y Hk. specialize (Hl (S k) y Hk).
    by rewrite Nat.add_succ_r in Hl. }
  destruct (decide (P x)) as [HP|HP].
  - rewrite !filter_cons_True by tauto. rewrite !fmap_cons, IH'. f_equal. auto.
  - rewrite !filter_cons_False by tauto. done.
Qed.

Lemma fmap_filter_assigned {B} (f : uprn_oa_row → B) (g : nat → B)
    (df : list uprn_oa_row) (u : string) :
  (∀ i p, df !! i = Some p → oa11cd p = u → f p = g i) →
  f <$> filter (λ r, oa11cd r = u) df = g <$> assigned df u.
Proof.
  intros Hfg. unfold assigned. apply fmap_filter_positions.
  intros k x Hk. simpl. rewrite Hk. simpl. split; [|by apply Hfg].
  split; [by intros ->|by intros [= ->]].
Qed.

Lemma assigned_nil_iff (df : list uprn_oa_row) (u : string) :
  assigned df u = [] ↔ filter (λ r, oa11cd r = u) df = [].
Proof.
  pose proof (fmap_filter_assigned (λ _, ()) (λ _, ()) df u (λ _ _ _ _, eq_refl)) as E.
  split; intros Hnil; rewrite Hnil in E.
  - by apply fmap_nil_inv in E.
  - symmetry in E. by apply fmap_nil_inv in E.
Qed.

(** *** One cell of the distance column *)

(** For a query point that is itself a row of the neighbourhood table, the
    second nearest point of the tree is the nearest other row. *)
Lemma cell_nearest_other (df : list uprn_oa_row) (oas : list string)
    (i : nat) (p : uprn_oa_row) :
  df !! i = Some p → oa11cd p ∈ oas →
  nth 1 (query_point (cKDTree (values (filter (λ r, oa11cd r ∈ oas) df)))
                     (points_from_xy (uprn p)) 2) NaN
  = from_option Fin PInf (nearest_other_distance df oas i).
Proof.
  intros Hi Hp. rewrite query_point_second.
  unfold nearest_other_distance, cKDTree, others, values. rewrite Hi.
  set (x := points_from_xy (uprn p)).
  set (pt := λ r : uprn_oa_row, points_from_xy (uprn r)).
  rewrite <- (take_drop_middle df i p Hi) at 1.
  rewrite !filter_app, filter_cons_True by done.
  rewrite !fmap_app, !fmap_cons. fold x.
  set (l1 := sqdist x <$> (pt <$> filter _ (take i df))).
  set (l2 := sqdist x <$> (pt <$> filter _ (drop (S i) df))).
  rewrite (second_of_sorted _ l1 l2 (sqdist x x)).
  - rewrite fmap_app. unfold l1, l2.
    rewrite <- !(list_fmap_compose (sqdist x) root).
    by destruct (_ ++ _).
  - apply merge_sort_Permutation.
  - apply Sorted_merge_sort. apply _.
  - intros q Hq. rewrite sqdist_self.
    apply elem_of_app in Hq as [Hq|Hq];
      apply list_elem_of_fmap in Hq as (t & -> & _); apply sqdist_nonneg.
Qed.

(** *** The mean of a column *)

Lemma foldr_fadd_Fin (ds : list R) :
  foldr fadd (Fin 0) (Fin <$> ds) = Fin (foldr Rplus 0%R ds).
Proof.
  induction ds as [|d ds IH]; [done|].
  rewrite fmap_cons.
  change (fadd (Fin d) (foldr fadd (Fin 0) (Fin <$> ds)) = Fin (d + foldr Rplus 0%R ds)).
  by rewrite IH.
Qed.

Lemma mean_Fin (ds : list R) :
  ds ≠ [] → mean (Fin <$> ds) = Fin (foldr Rplus 0%R ds / INR (length ds)).
Proof.
  intros Hne. unfold mean. destruct (Fin <$> ds) as [|v a] eqn:E.
  - by apply fmap_nil_inv in E.
  - by rewrite <- E, foldr_fadd_Fin, length_fmap.
Qed.

Lemma mean_PInf (a : list float64) :
  a ≠ [] → Forall (λ v, v = PInf) a → mean a = PInf.
Proof.
  intros Hne Hall. destruct a as [|v a]; [done|].
  unfold mean.
  assert (foldr fadd (Fin 0) (v :: a) = PInf) as ->; [|done].
  clear Hne. induction a as [|w a IH] in v, Hall |- *.
  - apply Forall_cons in Hall as [-> _]. done.
  - apply Forall_cons in Hall as [-> Hall]. simpl in *.
    by rewrite (IH w Hall).
Qed.

(** *** The body of the loop *)

Lemma mean_address_distance_cells (df : list uprn_oa_row) (u : string)
    (oas : list string) :
  mean_address_distance df u oas =
  mean ((λ p, nth 1 (query_point
                       (cKDTree (values (filter (λ r, oa11cd r ∈ oas) df)))
                       (points_from_xy (uprn p)) 2) NaN)
        <$> filter (λ r, oa11cd r = u) df).
Proof.
  unfold mean_address_distance, column, query, values.
  by rewrite <- !list_fmap_compose.
Qed.

(** The three outcomes of the loop body: NaN when the candidate unit has no
    point, +inf when it has one but the tree holds fewer than two points,
    and a finite mean otherwise. *)
Lemma mean_address_distance_cases (df : list uprn_oa_row) (u : string)
    (oas : list string) :
  (filter (λ r, oa11cd r = u) df = [] ∧ mean_address_distance df u oas = NaN) ∨
  (filter (λ r, oa11cd r = u) df ≠ [] ∧
   length (filter (λ r, oa11cd r ∈ oas) df) < 2 ∧
   mean_address_distance df u oas = PInf) ∨
  (filter (λ r, oa11cd r = u) df ≠ [] ∧
   2 ≤ length (filter (λ r, oa11cd r ∈ oas) df) ∧
   ∃ m, mean_address_distance df u oas = Fin m).
Proof.
  rewrite mean_address_distance_cells.
  set (tree := cKDTree (values (filter (λ r, oa11cd r ∈ oas) df))).
  assert (length tree = length (filter (λ r, oa11cd r ∈ oas) df)) as Hlen.
  { unfold tree, cKDTree, values. by rewrite length_fmap. }
  rewrite <- Hlen.
  destruct (filter (λ r, oa11cd r = u) df) as [|c cands] eqn:Ec; [by left|].
  right. destruct (decide (length tree < 2)) as [Hlt|Hge].
  - left. split; [done|]. split; [done|]. apply mean_PInf; [done|].
    apply Forall_fmap, Forall_forall. intros p _. simpl.
    destruct (query_point_second_cases tree (points_from_xy (uprn p)))
      as [[_ E]|[? _]]; [done|lia].
  - right. split; [done|]. split; [lia|].
    assert (∃ ds, (λ p, nth 1 (query_point tree (points_from_xy (uprn p)) 2) NaN)
                    <$> (c :: cands) = Fin <$> ds ∧ ds ≠ []) as (ds & -> & Hds).
    { clear Ec. generalize c. induction cands as [|c' cands IH]; intros c0.
      - destruct (query_point_second_cases tree (points_from_xy (uprn c0)))
          as [[? _]|[_ [d E]]]; [lia|].
        exists [d]. simpl. by rewrite E.
      - destruct (IH c') as (ds & E' & _).
        destruct (query_point_second_cases tree (points_from_xy (uprn c0)))
          as [[? _]|[_ [d E]]]; [lia|].
        exists (d :: ds). rewrite fmap_cons, E', E. done. }
    rewrite mean_Fin by done. by eexists.
Qed.

(** What the [oa_nn] loop leaves under a key. *)
Lemma oa_nn_lookup (df : list uprn_oa_row) (neighbours : gmap string (list string))
    (u : string) :
  oa_nn df neighbours !! u = mean_address_distance df u <$> neighbours !! u.
Proof.
  unfold oa_nn.
  apply (map_fold_weak_ind
           (λ r m, r !! u = mean_address_distance df u <$> m !! u)).
  - by rewrite !lookup_empty.
  - intros k oas m r Hk IH. destruct (decide (k = u)) as [->|Hne].
    + by rewrite !lookup_insert_eq.
    + by rewrite !lookup_insert_ne.
Qed.

(** Under the convention that a unit is in its own neighbourhood, the loop
    body is the mean of the nearest-other-point distances, position by
    position, with +inf standing for a point that has no other point. *)
Lemma mean_address_distance_positions (df : list uprn_oa_row) (u : string)
    (oas : list string) :
  u ∈ oas →
  mean_address_distance df u oas =
  mean ((λ i, from_option Fin PInf (nearest_other_distance df oas i))
        <$> assigned df u).
Proof.
  intros Hu. rewrite mean_address_distance_cells. f_equal.
  apply fmap_filter_assigned. intros i p Hi Hp.
  apply cell_nearest_other; [done|]. by rewrite Hp.
Qed.

Lemma from_option_Fin_fmap {A} (f : A → option R) (l : list A) (k : list R) :
  Forall2 (λ x y, f x = Some y) l k →
  (λ x, from_option Fin PInf (f x)) <$> l = Fin <$> k.
Proof.
  induction 1 as [|x y l k Hxy _ IH]; [done|].
  by rewrite !fmap_cons, IH, Hxy.
Qed.

Lemma elem_of_assigned (df : list uprn_oa_row) (u : string) (i : nat) :
  i ∈ assigned df u ↔ ∃ p, df !! i = Some p ∧ oa11cd p = u.
Proof.
  unfold assigned. rewrite list_elem_of_filter, elem_of_seq. split.
  - intros [Hi _]. destruct (df !! i) as [p|]; [|done].
    exists p. split; [done|]. by injection Hi.
  - intros (p & Hi & Hp). rewrite Hi. split; [by rewrite <- Hp|].
    apply lookup_lt_Some in Hi. lia.
Qed.

Lemma nearest_other_distance_is_Some (df : list uprn_oa_row) (oas : list string)
    (i : nat) (p : uprn_oa_row) :
  df !! i = Some p → oa11cd p ∈ oas →
  2 ≤ length (filter (λ r, oa11cd r ∈ oas) df) →
  is_Some (nearest_other_distance df oas i).
Proof.
  intros Hi Hp Hlen. unfold nearest_other_distance, others, values. rewrite Hi.
  rewrite <- (take_drop_middle df i p Hi) in Hlen.
  rewrite filter_app, filter_cons_True in Hlen by done.
  rewrite length_app in Hlen. simpl in Hlen.
  rewrite filter_app.
  destruct (filter _ (take i df) ++ filter _ (drop (S i) df)) as [|r l] eqn:E.
  - apply (f_equal length) in E. rewrite length_app in E. simpl in E. lia.
  - by eexists.
Qed.

(** *** Rearranging the rows *)

Lemma query_point_perm (tree1 tree2 : list coord) (x : coord) (k : nat) :
  tree1 ≡ₚ tree2 → query_point tree1 x k = query_point tree2 x k.
Proof.
  intros Hperm. unfold query_point.
  set (s1 := merge_sort Qle (sqdist x <$> tree1)).
  set (s2 := merge_sort Qle (sqdist x <$> tree2)).
  assert (s1 ≡ₚ s2) as Hs.
  { unfold s1, s2. by rewrite !merge_sort_Permutation, Hperm. }
  assert (root <$> s1 = root <$> s2) as Hroot.
  { apply (Sorted_unique Rle).
    - eapply Sorted_fmap; [apply root_mono|]. apply Sorted_merge_sort, _.
    - eapply Sorted_fmap; [apply root_mono|]. apply Sorted_merge_sort, _.
    - by rewrite Hs. }
  rewrite (Permutation_length Hs). f_equal.
  rewrite !(list_fmap_compose root Fin), !fmap_take. by rewrite Hroot.
Qed.

Lemma fadd_swap (x y z : float64) : fadd x (fadd y z) = fadd y (fadd x z).
Proof. destruct x, y, z; simpl; try done. f_equal. lra. Qed.

Lemma foldr_fadd_perm (a b : list float64) :
  a ≡ₚ b → foldr fadd (Fin 0) a = foldr fadd (Fin 0) b.
Proof.
  induction 1 as [|x a b _ IH|x y a|a b c _ IH1 _ IH2]; simpl.
  - done.
  - by rewrite IH.
  - apply fadd_swap.
  - by rewrite IH1.
Qed.

Lemma mean_perm (a b : list float64) : a ≡ₚ b → mean a = mean b.
Proof.
  intros Hperm. unfold mean. destruct a as [|v a], b as [|w b]; [done| | |].
  - by apply Permutation_nil_cons in Hperm.
  - symmetry in Hperm. by apply Permutation_nil_cons in Hperm.
  - by rewrite (foldr_fadd_perm _ _ Hperm), (Permutation_length Hperm).
Qed.

Lemma filter_candidates (df : list uprn_oa_row) (u : string) (oas : list string) :
  u ∈ oas →
  filter (λ r, oa11cd r = u) df =
  filter (λ r, oa11cd r = u) (filter (λ r, oa11cd r ∈ oas) df).
Proof.
  intros Hu. rewrite list_filter_filter. apply list_filter_iff.
  intros r. split; [|tauto]. intros Hr. split; [done|]. by rewrite Hr.
Qed.

(** The loop body depends on the table only through the rows of the
    neighbourhood, whatever their order. *)
Lemma mean_address_distance_perm (df1 df2 : list uprn_oa_row) (u : string)
    (oas : list string) :
  u ∈ oas →
  filter (λ r, oa11cd r ∈ oas) df1 ≡ₚ filter (λ r, oa11cd r ∈ oas) df2 →
  mean_address_distance df1 u oas = mean_address_distance df2 u oas.
Proof.
  intros Hu Hperm. rewrite !mean_address_distance_cells.
  rewrite (filter_candidates df1 u oas Hu), (filter_candidates df2 u oas Hu).
  set (F1 := filter (λ r, oa11cd r ∈ oas) df1) in *.
  set (F2 := filter (λ r, oa11cd r ∈ oas) df2) in *.
  transitivity
    (mean ((λ p, nth 1 (query_point (cKDTree (values F2))
                                    (points_from_xy (uprn p)) 2) NaN)
           <$> filter (λ r, oa11cd r = u) F1)).
  - f_equal. apply list_fmap_ext. intros i p _.
    apply (f_equal (λ row, nth 1 row NaN)), query_point_perm.
    unfold cKDTree, values. by rewrite Hperm.
  - apply mean_perm. by rewrite Hperm.
Qed.

(** *** The estimator's properties *)

(** C1. For a unit that is in its own neighbourhood, the value the estimator
    records is the mean, over the points assigned to the unit, of the
    distance from the point to its nearest other point among the points of
    the neighbourhood; that mean is defined as soon as the unit has a point
    and the neighbourhood has two. *)
Theorem oa_nn_mean_nearest_other (df : list uprn_oa_row)
    (neighbours : gmap string (list string)) (u : string) (oas : list string) :
  neighbours !! u = Some oas → u ∈ oas →
  (∀ m, mean_nearest_other df u oas = Some m →
        oa_nn df neighbours !! u = Some (Fin m)) ∧
  (filter (λ r, oa11cd r = u) df ≠ [] →
   2 ≤ length (filter (λ r, oa11cd r ∈ oas) df) →
   is_Some (mean_nearest_other df u oas)).
Proof.
  intros Hnb Hu. split.
  - intros m Hm. rewrite oa_nn_lookup, Hnb. simpl. f_equal.
    rewrite mean_address_distance_positions by done.
    unfold mean_nearest_other in Hm.
    destruct (assigned df u) as [|i idx] eqn:Ea; [done|].
    destruct (mapM (nearest_other_distance df oas) (i :: idx)) as [ds|] eqn:Eds;
      [|done].
    simpl in Hm. injection Hm as <-.
    apply mapM_Some in Eds.
    rewrite (from_option_Fin_fmap _ _ _ Eds).
    apply mean_Fin. intros ->. by apply Forall2_nil_inv_r in Eds.
  - intros Hcand Hlen. unfold mean_nearest_other.
    destruct (assigned df u) as [|i idx] eqn:Ea.
    { by apply assigned_nil_iff in Ea. }
    assert (is_Some (mapM (nearest_other_distance df oas) (i :: idx))) as [ds Eds].
    { apply mapM_is_Some, Forall_forall. intros j Hj.
      rewrite <- Ea in Hj. apply elem_of_assigned in Hj as (p & Hp & Hc).
      apply (nearest_other_distance_is_Some df oas j p); [done| |done].
      by rewrite Hc. }
    rewrite Eds. by eexists.
Qed.

(** C2, as amended.  The estimator records NaN for a unit exactly when no
    point is assigned to the unit, +inf exactly when the unit has a point and
    fewer than two points are assigned to its neighbourhood, and a finite
    mean exactly when the unit has a point and the neighbourhood two. *)
Theorem oa_nn_null_iff (df : list uprn_oa_row)
    (neighbours : gmap string (list string)) (u : string) (oas : list string) :
  neighbours !! u = Some oas →
  (oa_nn df neighbours !! u = Some NaN ↔ filter (λ r, oa11cd r = u) df = []) ∧
  (oa_nn df neighbours !! u = Some PInf ↔
     filter (λ r, oa11cd r = u) df ≠ [] ∧
     length (filter (λ r, oa11cd r ∈ oas) df) < 2) ∧
  ((∃ m, oa_nn df neighbours !! u = Some (Fin m)) ↔
     filter (λ r, oa11cd r = u) df ≠ [] ∧
     2 ≤ length (filter (λ r, oa11cd r ∈ oas) df)).
Proof.
  intros Hnb. rewrite oa_nn_lookup, Hnb. simpl.
  destruct (mean_address_distance_cases df u oas)
    as [[Hc ->]|[(Hc & Hl & ->)|(Hc & Hl & m & ->)]].
  - split; [done|]. split; [split; [done|by intros [? _]]|].
    split; [by intros [? ?]|by intros [? _]].
  - split; [done|]. split; [done|].
    split; [by intros [? ?]|intros [_ ?]; lia].
  - split; [done|]. split; [split; [done|intros [_ ?]; lia]|].
    split; [done|]. intros _. by exists m.
Qed.

Lemma second_all_zero (l : list Q) :
  2 ≤ length l → Forall (λ q, (q == 0)%Q) l →
  match merge_sort Qle l with _ :: b :: _ => Fin (root b) | _ => PInf end = Fin 0.
Proof.
  intros Hlen Hall.
  rewrite <- (length_merge_sort Qle l) in Hlen.
  rewrite <- (merge_sort_Permutation Qle l) in Hall.
  destruct (merge_sort Qle l) as [|a [|b s]]; simpl in Hlen; [lia|lia|].
  apply Forall_cons in Hall as [_ Hall]. apply Forall_cons in Hall as [Hb _].
  by rewrite (root_proper _ _ Hb), root_0.
Qed.

Lemma mean_zeros (a : list float64) :
  a ≠ [] → Forall (λ v, v = Fin 0) a → mean a = Fin 0.
Proof.
  intros Hne Hall.
  assert (a = Fin <$> replicate (length a) 0%R) as ->.
  { clear Hne. induction Hall as [|v a -> _ IH]; [done|].
    cbn [length replicate]. rewrite fmap_cons. by f_equal. }
  rewrite mean_Fin.
  - f_equal. rewrite length_replicate.
    assert (foldr Rplus 0%R (replicate (length a) 0%R) = 0%R) as ->.
    { induction (length a) as [|n IH]; simpl; [done|]. rewrite IH. lra. }
    unfold Rdiv. apply Rmult_0_l.
  - destruct a; [done|]. done.
Qed.

(** C6. When the points assigned to a neighbourhood are exactly two points
    with the same coordinates, the nearest-neighbour distance computed for
    each of them is 0, and so is the mean recorded for a unit of the
    neighbourhood that has a point. *)
Theorem coincident_pair_distance_zero (df : list uprn_oa_row)
    (oas : list string) (r1 r2 : uprn_oa_row) :
  filter (λ r, oa11cd r ∈ oas) df = [r1; r2] →
  (X_COORDINATE (uprn r1) == X_COORDINATE (uprn r2))%Q →
  (Y_COORDINATE (uprn r1) == Y_COORDINATE (uprn r2))%Q →
  (∀ r, r ∈ [r1; r2] →
     column 1 (query (cKDTree (values (filter (λ r, oa11cd r ∈ oas) df)))
                     (values [r]) 2) = [Fin 0]) ∧
  (∀ u, u ∈ oas → filter (λ r, oa11cd r = u) df ≠ [] →
     mean_address_distance df u oas = Fin 0).
Proof.
  intros Hf Hx Hy.
  assert (∀ r, r ∈ [r1; r2] →
            nth 1 (query_point (cKDTree (values [r1; r2]))
                               (points_from_xy (uprn r)) 2) NaN = Fin 0) as Hcell.
  { intros r Hr. rewrite query_point_second. apply second_all_zero; [simpl; lia|].
    unfold cKDTree, values. rewrite !fmap_cons.
    apply elem_of_cons in Hr as [->|Hr];
      [|apply list_elem_of_singleton in Hr as ->].
    - constructor; [apply sqdist_self|].
      constructor; [by apply sqdist_coincident|constructor].
    - constructor; [by apply sqdist_coincident|].
      constructor; [apply sqdist_self|constructor]. }
  split.
  - intros r Hr. rewrite Hf. unfold column, query. simpl. by rewrite Hcell.
  - intros u Hu Hcand. rewrite mean_address_distance_cells, Hf.
    apply mean_zeros.
    + intros E. by apply fmap_nil_inv in E.
    + apply Forall_fmap, Forall_forall. intros p Hp. simpl.
      apply Hcell. rewrite <- Hf. apply list_elem_of_filter in Hp as [Hc Hp].
      apply list_elem_of_filter. split; [by rewrite Hc|done].
Qed.

(** C9. The value recorded for a unit that is in its own neighbourhood
    depends only on the rows assigned to the neighbourhood, whatever their
    order: two tables with the same such rows give the same value, and rows
    assigned to codes outside the neighbourhood change nothing. *)
Theorem oa_nn_local (df1 df2 : list uprn_oa_row)
    (neighbours : gmap string (list string)) (u : string) (oas : list string) :
  neighbours !! u = Some oas → u ∈ oas →
  (filter (λ r, oa11cd r ∈ oas) df1 ≡ₚ filter (λ r, oa11cd r ∈ oas) df2 →
   oa_nn df1 neighbours !! u = oa_nn df2 neighbours !! u) ∧
  (∀ extra, Forall (λ r, oa11cd r ∉ oas) extra →
   oa_nn (df1 ++ extra) neighbours !! u = oa_nn df1 neighbours !! u).
Proof.
  intros Hnb Hu. split.
  - intros Hperm. rewrite !oa_nn_lookup, Hnb. simpl. f_equal.
    by apply mean_address_distance_perm.
  - intros extra Hextra. rewrite !oa_nn_lookup, Hnb. simpl. f_equal.
    apply mean_address_distance_perm; [done|].
    rewrite filter_app.
    assert (filter (λ r, oa11cd r ∈ oas) extra = []) as ->.
    { induction Hextra as [|r extra Hr _ IH]; [done|].
      by rewrite filter_cons_False. }
    by rewrite app_nil_r.
Qed.

(** C10. After the loop the output has an entry for exactly the keys of the
    adjacency map, one per key, and the entry is the value the loop body
    computed, whatever it is. *)
Theorem oa_nn_total (df : list uprn_oa_row) (neighbours : gmap string (list string)) :
  dom (oa_nn df neighbours) = dom neighbours ∧
  size (oa_nn df neighbours) = size neighbours ∧
  ∀ u, oa_nn df neighbours !! u
       = mean_address_distance df u <$> neighbours !! u.
Proof.
  assert (dom (oa_nn df neighbours) = dom neighbours) as Hdom.
  { apply set_eq. intros u. rewrite !elem_of_dom, oa_nn_lookup.
    apply fmap_is_Some. }
  split; [done|]. split; [|apply oa_nn_lookup].
  by rewrite <- !size_dom, Hdom.
Qed.

(** * The scenarios of the specification, on unit squares *)

Section Squares.
Import Box.

Lemma Qltb_true (a b : Q) : Qltb a b = true ↔ (a < b)%Q.
Proof.
  unfold Qltb. rewrite negb_true_iff. split.
  - intros Hb. apply Qnot_le_lt. intros Hle. apply Qle_bool_iff in Hle. congruence.
  - intros Hlt. destruct (Qle_bool b a) eqn:E; [|done].
    apply Qle_bool_iff in E. by apply Qlt_not_le in Hlt.
Qed.

Lemma box_within_iff (q : coord) (b : box) :
  box_within q b = true ↔
  (xmin b < q.1)%Q ∧ (q.1 < xmax b)%Q ∧ (ymin b < q.2)%Q ∧ (q.2 < ymax b)%Q.
Proof. unfold box_within. rewrite !andb_true_iff, !Qltb_true. tauto. Qed.

Lemma unit_square_apart (q : coord) (i j : Z) :
  i ≠ j → within q (unit_square i) = true → within q (unit_square j) = false.
Proof.
  intros Hij Hi. apply box_within_iff in Hi as (H1 & H2 & _). simpl in H1, H2.
  apply not_true_iff_false. intros Hj.
  apply box_within_iff in Hj as (H3 & H4 & _). simpl in H3, H4.
  destruct (Z_lt_le_dec i j) as [Hlt|Hge].
  - assert (inject_Z (i + 1) <= inject_Z j)%Q as Hle
      by (rewrite <- Zle_Qle; lia).
    apply (Qlt_irrefl q.1). eapply Qlt_trans; [exact H2|].
    eapply Qle_lt_trans; [exact Hle|exact H3].
  - assert (inject_Z (j + 1) <= inject_Z i)%Q as Hle
      by (rewrite <- Zle_Qle; lia).
    apply (Qlt_irrefl q.1). eapply Qlt_trans; [exact H4|].
    eapply Qle_lt_trans; [exact Hle|exact H1].
Qed.

Lemma three_squares_non_overlapping : non_overlapping three_squares.
Proof.
  intros i j a b q Hi Hj Hij Ha.
  destruct i as [|[|[|i]]], j as [|[|[|j]]]; cbn in Hi, Hj; simplify_eq;
    try (by destruct Hij);
    (eapply unit_square_apart; [|exact Ha]; lia).
Qed.

Lemma three_squares_neighbours :
  neighbours three_squares !! "E00000002" = Some three_codes.
Proof. vm_compute. reflexivity. Qed.

(** The end squares touch the middle one only. *)
Example three_squares_neighbours_left :
  neighbours three_squares !! "E00000001" = Some ["E00000001"; "E00000002"].
Proof. vm_compute. reflexivity. Qed.

Example three_squares_neighbours_right :
  neighbours three_squares !! "E00000003" = Some ["E00000002"; "E00000003"].
Proof. vm_compute. reflexivity. Qed.

(** The loop reads ten batches, at offsets 0, 20,000, ..., 180,000. *)
Example range_oa_batches :
  range 0 (200 * 1000) (20 * 1000) = (λ k, k * (20 * 1000)) <$> seq 0 10.
Proof. rewrite twenty_thousand_batches. apply range_from_0. lia. Qed.

(** Each of the three points is tagged with the code of its square. *)
Example three_points_tagged :
  uprn_oa2011 three_points three_squares = three_tagged.
Proof. vm_compute. reflexivity. Qed.

(** A point on the edge shared by two squares is within neither. *)
Example edge_point_dropped :
  sjoin_oa [pt 9 1 (1 # 2)] three_squares = [].
Proof. vm_compute. reflexivity. Qed.

(** The glasshouse does not pass the filter on the feature code. *)
Example some_buildings_joined :
  building_uprns_one_pass three_points some_buildings = [1; 3]%Z.
Proof. vm_compute. reflexivity. Qed.



(** *** The adjacency builder on the three squares *)

Lemma neighbours_symmetric_witness :
  ∃ la lb,
    neighbours three_squares !! "E00000001" = Some la ∧
    neighbours three_squares !! "E00000002" = Some lb ∧
    ("E00000001" ∈ lb ↔ "E00000002" ∈ la).
Proof.
  apply (neighbours_symmetric three_squares
           {| OA11CD := "E00000001"; geometry := unit_square 0 |}
           {| OA11CD := "E00000002"; geometry := unit_square 1 |}).
  - apply (bool_decide_unpack _). vm_compute. exact I.
  - unfold three_squares. set_solver.
  - unfold three_squares. set_solver.
Defined.

Lemma neighbours_reflexive_witness :
  ∃ la, neighbours three_squares !! "E00000002" = Some la ∧ "E00000002" ∈ la.
Proof.
  apply (neighbours_reflexive three_squares
           {| OA11CD := "E00000002"; geometry := unit_square 1 |}).
  - repeat constructor.
  - unfold three_squares. set_solver.
Defined.

(** *** The join on the three squares *)

Lemma sjoin_oa_assignment_witness :
  non_overlapping three_squares ∧
  (∀ p c1 c2,
     {| uprn := p; oa11cd := c1 |} ∈ sjoin_oa three_points three_squares →
     {| uprn := p; oa11cd := c2 |} ∈ sjoin_oa three_points three_squares →
     c1 = c2).
Proof.
  split; [exact three_squares_non_overlapping|].
  exact (proj2 (proj2 (sjoin_oa_assignment three_points three_squares))
               three_squares_non_overlapping).
Defined.

Lemma batched_join_same_rows_witness :
  uprn_oa2011 three_points three_squares ≡ₚ sjoin_oa three_points three_squares ∧
  building_uprns three_points some_buildings
    ≡ₚ building_uprns_one_pass three_points some_buildings.
Proof.
  split.
  - apply (proj1 (batched_join_same_rows three_points three_squares some_buildings)).
    change (length three_squares) with 3. lia.
  - apply (proj2 (batched_join_same_rows three_points three_squares some_buildings)).
    change (length (List.filter (λ b : building_row box, where_building (feature_code b))
                                some_buildings)) with 2.
    lia.
Defined.

(** *** The batches on a row of 200,001 squares *)

Lemma sjoin_oa_none (p : uprn_row) (l : list (oa_row box)) :
  Forall (λ r, within (points_from_xy p) (geometry r) = false) l →
  sjoin_oa [p] l = [].
Proof.
  intros Hall. unfold sjoin_oa, sjoin. rewrite bind_cons.
  induction Hall as [|r l Hr _ IH]; [done|].
  rewrite bind_cons, Hr. exact IH.
Qed.

Lemma last_point_not_within (k : nat) :
  k < 200 * 1000 →
  within (points_from_xy last_point) (unit_square (Z.of_nat k)) = false.
Proof.
  intros Hk. apply not_true_iff_false. intros Hw.
  apply box_within_iff in Hw as (_ & H2 & _).
  unfold Qlt in H2. cbn [points_from_xy last_point pt X_COORDINATE fst xmax
                         unit_square inject_Z Qnum Qden] in H2.
  lia.
Qed.

Lemma long_row_head_empty :
  sjoin_oa [last_point]
    ((λ k, {| OA11CD := pretty k; geometry := unit_square (Z.of_nat k) |})
       <$> seq 0 (200 * 1000)) = [].
Proof.
  apply sjoin_oa_none, Forall_fmap, Forall_seq. intros k Hk.
  apply last_point_not_within. lia.
Qed.

Lemma last_point_within_last :
  within (points_from_xy last_point) (unit_square (Z.of_nat (0 + 200 * 1000)))
  = true.
Proof. vm_compute. reflexivity. Qed.

Lemma long_row_last_joined :
  {| uprn := last_point; oa11cd := pretty (0 + 200 * 1000) |}
  ∈ sjoin_oa [last_point]
      ((λ k, {| OA11CD := pretty k; geometry := unit_square (Z.of_nat k) |})
         <$> [0 + 200 * 1000]).
Proof.
  apply elem_of_sjoin_oa. split; [apply list_elem_of_singleton; reflexivity|].
  eexists. split; [apply list_elem_of_singleton; reflexivity|].
  split; [reflexivity|]. exact last_point_within_last.
Qed.

(** The claim C8 fails on a layer of 200,001 output areas: the loop reads
    200,000 of them and the point in the last one is lost. *)
Lemma long_row_batches_miss_last :
  ¬ (uprn_oa2011 [last_point] long_row ≡ₚ sjoin_oa [last_point] long_row).
Proof.
  intros Hp. rewrite uprn_oa2011_take in Hp. apply Permutation_length in Hp.
  unfold long_row in Hp.
  rewrite Nat.add_1_r, seq_S, fmap_app in Hp.
  rewrite take_app_length' in Hp; [|rewrite length_fmap, length_seq; reflexivity].
  rewrite sjoin_oa_app_r, length_app, long_row_head_empty in Hp.
  pose proof long_row_last_joined as Hin.
  destruct (sjoin_oa [last_point] (_ <$> [0 + 200 * 1000])) as [|t l].
  - by apply not_elem_of_nil in Hin.
  - discriminate Hp.
Qed.

(** *** The estimator on small tables *)

Lemma lone_point_infinite :
  oa_nn lone_point lone_neighbours !! "E00000001" = Some PInf.
Proof.
  rewrite oa_nn_lookup. unfold lone_neighbours. rewrite lookup_singleton_eq.
  change (Some (mean_address_distance lone_point "E00000001" ["E00000001"])
          = Some PInf).
  apply (f_equal Some).
  destruct (mean_address_distance_cases lone_point "E00000001" ["E00000001"])
    as [[Hc _]|[(_ & _ & E)|(_ & Hl & _)]].
  - vm_compute in Hc. discriminate.
  - exact E.
  - vm_compute in Hl. lia.
Qed.

(** The claim C2 fails on a unit with a single point and no neighbour: fewer
    than two points are assigned to the neighbourhood, and the value is
    +inf, not NaN. *)
Lemma single_point_not_null :
  ¬ (oa_nn lone_point lone_neighbours !! "E00000001" = Some NaN ↔
     (length (filter (λ r, oa11cd r ∈ ["E00000001"]) lone_point) < 2 ∨
      filter (λ r, oa11cd r = "E00000001") lone_point = [])).
Proof.
  intros [_ Hnull]. rewrite lone_point_infinite in Hnull.
  assert (Some PInf = Some NaN) as E; [|discriminate].
  apply Hnull. left. vm_compute. lia.
Qed.

Lemma oa_nn_null_iff_witness :
  (oa_nn lone_point lone_neighbours !! "E00000001" = Some NaN ↔
     filter (λ r, oa11cd r = "E00000001") lone_point = []) ∧
  (oa_nn lone_point lone_neighbours !! "E00000001" = Some PInf ↔
     filter (λ r, oa11cd r = "E00000001") lone_point ≠ [] ∧
     length (filter (λ r, oa11cd r ∈ ["E00000001"]) lone_point) < 2) ∧
  ((∃ m, oa_nn lone_point lone_neighbours !! "E00000001" = Some (Fin m)) ↔
     filter (λ r, oa11cd r = "E00000001") lone_point ≠ [] ∧
     2 ≤ length (filter (λ r, oa11cd r ∈ ["E00000001"]) lone_point)).
Proof.
  apply (oa_nn_null_iff lone_point lone_neighbours "E00000001" ["E00000001"]).
  reflexivity.
Defined.

Lemma oa_nn_mean_nearest_other_witness :
  ∃ m, mean_nearest_other three_tagged "E00000002" three_codes = Some m ∧
       oa_nn three_tagged (neighbours three_squares) !! "E00000002"
         = Some (Fin m).
Proof.
  destruct (oa_nn_mean_nearest_other three_tagged (neighbours three_squares)
              "E00000002" three_codes) as [Hval Hdef].
  - exact three_squares_neighbours.
  - unfold three_codes. set_solver.
  - destruct Hdef as [m Hm].
    + vm_compute. discriminate.
    + vm_compute. lia.
    + exists m. split; [exact Hm|]. apply Hval, Hm.
Defined.

Lemma coincident_pair_distance_zero_witness :
  mean_address_distance coincident_pair "E00000001" ["E00000001"] = Fin 0.
Proof.
  refine (proj2 (coincident_pair_distance_zero coincident_pair ["E00000001"]
                   {| uprn := pt 1 (1 # 2) (1 # 2); oa11cd := "E00000001" |}
                   {| uprn := pt 2 (2 # 4) (1 # 2); oa11cd := "E00000001" |}
                   _ _ _) "E00000001" _ _).
  - reflexivity.
  - reflexivity.
  - reflexivity.
  - set_solver.
  - vm_compute. discriminate.
Defined.

Lemma oa_nn_local_witness :
  oa_nn three_tagged (neighbours three_squares) !! "E00000002"
  = oa_nn (reverse three_tagged
             ++ [ {| uprn := pt 4 (99 # 2) (1 # 2); oa11cd := "E00000099" |} ])
          (neighbours three_squares) !! "E00000002".
Proof.
  apply (proj1 (oa_nn_local three_tagged _ (neighbours three_squares)
                  "E00000002" three_codes three_squares_neighbours
                  ltac:(unfold three_codes; set_solver))).
  assert (filter (λ r, oa11cd r ∈ three_codes)
                 (reverse three_tagged
                    ++ [ {| uprn := pt 4 (99 # 2) (1 # 2); oa11cd := "E00000099" |} ])
          = reverse (filter (λ r, oa11cd r ∈ three_codes) three_tagged)) as ->
    by (vm_compute; reflexivity).
  symmetry. apply reverse_Permutation.
Defined.


End Squares.

(** * Further properties of the notebook *)

(** ** The adjacency builder, beyond symmetry and reflexivity *)

Section AdjacencyMore.
Context {G : Type} `{Geometry G}.

Lemma neighbours_lookup_last (oa_2011 : list (oa_row G)) (c : string) :
  neighbours oa_2011 !! c =
  (λ r, not_disjoint_codes oa_2011 (geometry r))
    <$> last (filter (λ r, OA11CD r = c) oa_2011).
Proof.
  unfold neighbours. rewrite neighbours_loop_lookup.
  by destruct (last (filter _ oa_2011)).
Qed.

Lemma filter_sublist_bool {A} (f : A → bool) (l : list A) :
  List.filter f l `sublist_of` l.
Proof.
  induction l as [|x l IH]; simpl; [constructor|].
  destruct (f x); by constructor.
Qed.

(** X1. The keys of the adjacency dict are exactly the codes that occur in
    the layer. *)
Theorem neighbours_keys (oa_2011 : list (oa_row G)) :
  dom (neighbours oa_2011) = list_to_set (OA11CD <$> oa_2011).
Proof.
  apply set_eq. intros c.
  rewrite elem_of_dom, neighbours_lookup_last, fmap_is_Some.
  rewrite elem_of_list_to_set, list_elem_of_fmap. split.
  - intros [r Hr]. apply last_Some in Hr as [l' Hr].
    assert (r ∈ filter (λ r, OA11CD r = c) oa_2011) as Hin.
    { rewrite Hr. apply elem_of_app. right. by apply list_elem_of_singleton. }
    apply list_elem_of_filter in Hin as [? ?]. by exists r.
  - intros (r & -> & Hr).
    destruct (last (filter (λ r0, OA11CD r0 = OA11CD r) oa_2011)) eqn:E;
      [by eexists|].
    apply last_None in E.
    assert (r ∈ filter (λ r0, OA11CD r0 = OA11CD r) oa_2011) as Hin
      by by apply list_elem_of_filter.
    rewrite E in Hin. by apply not_elem_of_nil in Hin.
Qed.

(** X2. With unique codes, the neighbour list of a unit holds the code of
    another unit of the layer exactly when the two polygons are not
    disjoint. *)
Theorem neighbours_not_disjoint (oa_2011 : list (oa_row G)) (a : oa_row G) :
  NoDup (OA11CD <$> oa_2011) → a ∈ oa_2011 →
  ∃ la, neighbours oa_2011 !! OA11CD a = Some la ∧
        ∀ b, b ∈ oa_2011 →
          (OA11CD b ∈ la ↔ disjoint (geometry b) (geometry a) = false).
Proof.
  intros Hnd Ha. eexists. split; [by apply neighbours_lookup_unique|].
  intros b Hb. rewrite elem_of_not_disjoint_codes. split.
  - intros (r & Hr & Hc & Hd).
    by rewrite (unique_code oa_2011 r b Hnd Hr Hb Hc) in Hd.
  - intros Hd. by exists b.
Qed.

(** X3. Every neighbour list is a sub-list of the code column of the layer:
    it names units of the layer only, in the order of the layer, and it has
    no repeated code when the layer has none. *)
Theorem neighbours_lists_within_layer (oa_2011 : list (oa_row G))
    (c : string) (l : list string) :
  neighbours oa_2011 !! c = Some l →
  l `sublist_of` (OA11CD <$> oa_2011) ∧
  (NoDup (OA11CD <$> oa_2011) → NoDup l).
Proof.
  rewrite neighbours_lookup_last. intros Hl.
  destruct (last (filter _ oa_2011)) as [r|]; [|done].
  injection Hl as <-.
  assert (not_disjoint_codes oa_2011 (geometry r) `sublist_of` (OA11CD <$> oa_2011))
    as Hsub by apply fmap_sublist, filter_sublist_bool.
  split; [done|]. intros Hnd. by eapply sublist_NoDup.
Qed.

(** X4. When several rows carry the same code, the dict keeps the list
    computed from the polygon of the last of them. *)
Theorem neighbours_last_row_wins (pre post : list (oa_row G)) (r : oa_row G) :
  Forall (λ r', OA11CD r' ≠ OA11CD r) post →
  neighbours (pre ++ r :: post) !! OA11CD r
  = Some (not_disjoint_codes (pre ++ r :: post) (geometry r)).
Proof.
  intros Hpost. rewrite neighbours_lookup_last.
  rewrite filter_app, filter_cons_True by done.
  assert (filter (λ r0, OA11CD r0 = OA11CD r) post = []) as ->.
  { induction Hpost as [|r' post Hr' _ IH]; [done|].
    by rewrite filter_cons_False. }
  by rewrite last_snoc.
Qed.

End AdjacencyMore.

(** ** The batched joins, beyond the comparison with one pass *)

Section Prefix.
Context {A : Type}.

Lemma batches_concat (layer : list A) (n step : nat) :
  concat ((λ skip, read_dataframe layer skip step)
            <$> ((λ k, k * step) <$> seq 0 n))
  = take (n * step) layer.
Proof.
  induction n as [|n IH]; [done|].
  rewrite seq_S, !fmap_app, concat_app, IH. simpl.
  rewrite app_nil_r. unfold read_dataframe.
  rewrite take_take_drop. f_equal. lia.
Qed.

End Prefix.

Section JoinMore.
Context {G : Type} `{Geometry G}.

(** X5. The batches that the two loops read are consecutive and do not
    overlap: put end to end, they are the first 200,000 features of the
    output-area layer, and the first 18,000,000 building footprints that
    pass the filter on the feature code, each once and in the order of the
    layer. *)
Theorem batches_read_prefix (oa_layer : list (oa_row G))
    (building_layer : list (building_row G)) :
  concat ((λ skip, read_dataframe oa_layer skip (20 * 1000))
            <$> range 0 (200 * 1000) (20 * 1000))
  = take (200 * 1000) oa_layer ∧
  concat (read_buildings building_layer
            <$> range 0 (18 * 1000 * 1000) (500 * 1000))
  = take (18 * 1000 * 1000)
         (List.filter (λ b, where_building (feature_code b)) building_layer).
Proof.
  split.
  - rewrite twenty_thousand_batches, range_from_0 by lia. apply batches_concat.
  - rewrite half_million_batches, range_from_0 by lia.
    unfold read_buildings. apply batches_concat.
Qed.

Lemma elem_of_filter_bool {A} (f : A → bool) (l : list A) (x : A) :
  x ∈ List.filter f l ↔ x ∈ l ∧ f x = true.
Proof. by rewrite !list_elem_of_In, filter_In. Qed.

Lemma elem_of_building_uprns_take (uprn_gdf : list uprn_row)
    (layer : list (building_row G)) (z : Z) :
  z ∈ building_uprns uprn_gdf layer ↔
  ∃ p b, p ∈ uprn_gdf ∧ UPRN p = z ∧
         b ∈ take (18 * 1000 * 1000)
                  (List.filter (λ b, where_building (feature_code b)) layer) ∧
         within (points_from_xy p) (footprint b) = true.
Proof.
  rewrite building_uprns_take, list_elem_of_fmap. split.
  - intros ([p b] & -> & Hin). apply elem_of_sjoin in Hin as (? & ? & ?).
    by exists p, b.
  - intros (p & b & Hp & <- & Hb & Hw). exists (p, b). split; [done|].
    by apply elem_of_sjoin.
Qed.

(** X6. A UPRN is in the list the first loop builds only if one of its
    points is within a footprint whose feature code is one of the five kept
    codes; and every such UPRN is in the list when at most 18,000,000
    footprints pass the filter. *)
Theorem building_uprns_selected (uprn_gdf : list uprn_row)
    (layer : list (building_row G)) (z : Z) :
  (z ∈ building_uprns uprn_gdf layer →
   ∃ p b, p ∈ uprn_gdf ∧ UPRN p = z ∧ b ∈ layer ∧
          feature_code b ∈ [15014; 15024; 15026; 15027; 15028]%Z ∧
          within (points_from_xy p) (footprint b) = true) ∧
  (length (List.filter (λ b, where_building (feature_code b)) layer)
     ≤ 18 * 1000 * 1000 →
   (∃ p b, p ∈ uprn_gdf ∧ UPRN p = z ∧ b ∈ layer ∧
           feature_code b ∈ [15014; 15024; 15026; 15027; 15028]%Z ∧
           within (points_from_xy p) (footprint b) = true) →
   z ∈ building_uprns uprn_gdf layer).
Proof.
  split.
  - intros Hz. apply elem_of_building_uprns_take in Hz as (p & b & Hp & Hz & Hb & Hw).
    apply elem_of_take in Hb as (i & Hb & _).
    apply list_elem_of_lookup_2, elem_of_filter_bool in Hb as [Hb Hc].
    exists p, b. repeat split; try done.
    by apply bool_decide_eq_true in Hc.
  - intros Hlen (p & b & Hp & Hz & Hb & Hc & Hw).
    apply elem_of_building_uprns_take. exists p, b. repeat split; try done.
    rewrite take_ge by done. apply elem_of_filter_bool. split; [done|].
    by apply bool_decide_eq_true.
Qed.

Lemma isin_one_pass (uprn_gdf : list uprn_row) (layer : list (building_row G)) :
  length (List.filter (λ b, where_building (feature_code b)) layer)
    ≤ 18 * 1000 * 1000 →
  uprn_gdf_buildings uprn_gdf layer
  = isin_uprns uprn_gdf (building_uprns_one_pass uprn_gdf layer).
Proof.
  intros Hlen. unfold uprn_gdf_buildings, isin_uprns.
  apply list_filter_iff. intros p.
  rewrite building_uprns_take, take_ge by done. done.
Qed.

(** X7. When at most 18,000,000 footprints pass the filter, the filtered UPRN
    table is the same, row for row, whether the list of building UPRNs comes
    from the batches or from one pass; it is a sub-list of the UPRN table,
    so a point within several footprints is kept once. *)
Theorem uprn_gdf_buildings_one_pass (uprn_gdf : list uprn_row)
    (layer : list (building_row G)) :
  uprn_gdf_buildings uprn_gdf layer `sublist_of` uprn_gdf ∧
  (length (List.filter (λ b, where_building (feature_code b)) layer)
     ≤ 18 * 1000 * 1000 →
   uprn_gdf_buildings uprn_gdf layer
   = isin_uprns uprn_gdf (building_uprns_one_pass uprn_gdf layer)).
Proof. split; [apply sublist_filter|apply isin_one_pass]. Qed.

(** X8. A row of the UPRN table is kept by the filter exactly when some row
    with the same UPRN has its point within one of the first 18,000,000
    footprints that pass the filter; when the UPRNs of the table are unique,
    exactly when its own point is. *)
Theorem uprn_gdf_buildings_rows (uprn_gdf : list uprn_row)
    (layer : list (building_row G)) (p : uprn_row) :
  (p ∈ uprn_gdf_buildings uprn_gdf layer ↔
   p ∈ uprn_gdf ∧
   ∃ p' b, p' ∈ uprn_gdf ∧ UPRN p' = UPRN p ∧
           b ∈ take (18 * 1000 * 1000)
                    (List.filter (λ b, where_building (feature_code b)) layer) ∧
           within (points_from_xy p') (footprint b) = true) ∧
  (NoDup (UPRN <$> uprn_gdf) →
   (p ∈ uprn_gdf_buildings uprn_gdf layer ↔
    p ∈ uprn_gdf ∧
    ∃ b, b ∈ take (18 * 1000 * 1000)
                  (List.filter (λ b, where_building (feature_code b)) layer) ∧
         within (points_from_xy p) (footprint b) = true)).
Proof.
  assert (p ∈ uprn_gdf_buildings uprn_gdf layer ↔
          p ∈ uprn_gdf ∧
          ∃ p' b, p' ∈ uprn_gdf ∧ UPRN p' = UPRN p ∧
                  b ∈ take (18 * 1000 * 1000)
                           (List.filter (λ b, where_building (feature_code b)) layer) ∧
                  within (points_from_xy p') (footprint b) = true) as Hgen.
  { unfold uprn_gdf_buildings, isin_uprns.
    rewrite list_elem_of_filter, elem_of_building_uprns_take. tauto. }
  split; [exact Hgen|]. intros Hnd. rewrite Hgen. split.
  - intros (Hp & p' & b & Hp' & Hu & Hb & Hw). split; [done|]. exists b.
    split; [done|].
    apply list_elem_of_lookup in Hp as [i Hi], Hp' as [j Hj].
    assert (i = j) as ->.
    { eapply NoDup_lookup; [exact Hnd| |].
      - by rewrite list_lookup_fmap, Hi.
      - rewrite list_lookup_fmap, Hj. simpl. by rewrite Hu. }
    congruence.
  - intros (Hp & b & Hb & Hw). split; [done|]. by exists p, b.
Qed.

Lemma non_overlapping_tail (r : oa_row G) (polys : list (oa_row G)) :
  non_overlapping (r :: polys) → non_overlapping polys.
Proof.
  intros Hno i j a b q Hi Hj Hij. apply (Hno (S i) (S j)); [done|done|lia].
Qed.

Lemma non_overlapping_take (n : nat) (polys : list (oa_row G)) :
  non_overlapping polys → non_overlapping (take n polys).
Proof.
  intros Hno i j a b q Hi Hj Hij.
  apply lookup_take_Some in Hi as [Hi _], Hj as [Hj _]. by apply (Hno i j).
Qed.

(** With polygons that do not overlap, a point is joined to no polygon or
    to one. *)
Lemma sjoin_point_cases (p : uprn_row) (polys : list (oa_row G)) :
  non_overlapping polys →
  let row := polys ≫= λ r,
               if within (points_from_xy p) (geometry r) then [(p, r)] else [] in
  (row = [] ∧ ∀ r, r ∈ polys → within (points_from_xy p) (geometry r) = false) ∨
  (∃ r, row = [(p, r)]).
Proof.
  intros Hno. simpl. induction polys as [|r polys IH]; [left; split; [done|]|].
  { intros r Hr. by apply not_elem_of_nil in Hr. }
  rewrite bind_cons.
  destruct (IH (non_overlapping_tail _ _ Hno)) as [[E Hall]|[r' E]]; rewrite E.
  - destruct (within (points_from_xy p) (geometry r)) eqn:Hw.
    + right. by exists r.
    + left. split; [done|]. intros r0 Hr0.
      apply elem_of_cons in Hr0 as [->|Hr0]; [done|by apply Hall].
  - destruct (within (points_from_xy p) (geometry r)) eqn:Hw; [|right; by exists r'].
    exfalso.
    assert ((p, r') ∈ polys ≫= λ r,
              if within (points_from_xy p) (geometry r) then [(p, r)] else [])
      as Hin by (rewrite E; by apply list_elem_of_singleton).
    apply list_elem_of_bind in Hin as (r0 & Hin & Hr0).
    destruct (within (points_from_xy p) (geometry r0)) eqn:Hw0;
      [|by apply not_elem_of_nil in Hin].
    apply list_elem_of_lookup in Hr0 as [k Hk].
    pose proof (Hno 0 (S k) r r0 (points_from_xy p) eq_refl Hk ltac:(lia) Hw).
    congruence.
Qed.

Lemma sjoin_points_sublist (uprn_gdf : list uprn_row) (polys : list (oa_row G)) :
  non_overlapping polys →
  uprn <$> sjoin_oa uprn_gdf polys `sublist_of` uprn_gdf.
Proof.
  intros Hno. unfold sjoin_oa, sjoin.
  induction uprn_gdf as [|p pts IH]; [constructor|].
  rewrite bind_cons, !fmap_app.
  destruct (sjoin_point_cases p polys Hno) as [[-> _]|[r ->]]; simpl.
  - by constructor.
  - by constructor.
Qed.

Lemma sjoin_points_covered (uprn_gdf : list uprn_row) (polys : list (oa_row G)) :
  non_overlapping polys → covered uprn_gdf polys →
  uprn <$> sjoin_oa uprn_gdf polys = uprn_gdf.
Proof.
  intros Hno Hcov. unfold sjoin_oa, sjoin.
  induction uprn_gdf as [|p pts IH]; [done|].
  rewrite bind_cons, !fmap_app.
  destruct (sjoin_point_cases p polys Hno) as [[_ Hnone]|[r ->]]; simpl.
  - destruct (Hcov p) as (r & Hr & Hw); [by left|].
    rewrite (Hnone r Hr) in Hw. discriminate.
  - f_equal. apply IH. intros q Hq. apply Hcov. by right.
Qed.

(** X9. When the output areas do not overlap, the tagged table holds each
    point of the UPRN table at most once. *)
Theorem uprn_oa2011_at_most_once (uprn_gdf : list uprn_row)
    (layer : list (oa_row G)) :
  non_overlapping layer →
  uprn <$> uprn_oa2011 uprn_gdf layer ⊆+ uprn_gdf.
Proof.
  intros Hno. rewrite uprn_oa2011_take.
  apply sublist_submseteq, sjoin_points_sublist.
  by apply non_overlapping_take.
Qed.

(** X10. When the output areas do not overlap, are at most 200,000 and every
    point is within one of them, the tagged table holds each point of the
    UPRN table exactly once: the join neither drops nor repeats a row. *)
Theorem uprn_oa2011_exactly_once (uprn_gdf : list uprn_row)
    (layer : list (oa_row G)) :
  non_overlapping layer → length layer ≤ 200 * 1000 →
  covered uprn_gdf layer →
  uprn <$> uprn_oa2011 uprn_gdf layer ≡ₚ uprn_gdf.
Proof.
  intros Hno Hlen Hcov. rewrite uprn_oa2011_take, take_ge by done.
  by rewrite sjoin_points_covered.
Qed.

End JoinMore.

(** ** The estimator, beyond its contract *)

Lemma root_nonneg (q : Q) : (0 <= root q)%R.
Proof. apply sqrt_pos. Qed.

Lemma cell_not_negative (tree : list coord) (x : coord) :
  not_negative (nth 1 (query_point tree x 2) NaN).
Proof.
  rewrite query_point_second.
  destruct (merge_sort Qle (sqdist x <$> tree)) as [|a [|b s]]; simpl; try done.
  apply root_nonneg.
Qed.

Lemma fadd_not_negative (v w : float64) :
  not_negative v → not_negative w → not_negative (fadd v w).
Proof. destruct v, w; simpl; try done. lra. Qed.

Lemma sum_not_negative (a : list float64) :
  Forall not_negative a → not_negative (foldr fadd (Fin 0) a).
Proof.
  induction 1 as [|v a Hv _ IH]; simpl; [lra|]. by apply fadd_not_negative.
Qed.

Lemma mean_not_negative (a : list float64) :
  a ≠ [] → Forall not_negative a → not_negative (mean a).
Proof.
  intros Hne Hall. unfold mean. destruct a as [|v a]; [done|].
  pose proof (sum_not_negative _ Hall) as Hs.
  destruct (foldr fadd (Fin 0) (v :: a)) as [x| |]; [|done|done].
  cbn [fdiv_count not_negative] in *.
  unfold Rdiv. apply Rmult_le_pos; [done|].
  apply Rlt_le, Rinv_0_lt_compat, lt_0_INR. cbn [length]. lia.
Qed.

Lemma cells_not_negative (df : list uprn_oa_row) (u : string) (oas : list string) :
  Forall not_negative
    ((λ p, nth 1 (query_point
                    (cKDTree (values (filter (λ r, oa11cd r ∈ oas) df)))
                    (points_from_xy (uprn p)) 2) NaN)
     <$> filter (λ r, oa11cd r = u) df).
Proof.
  apply Forall_fmap, Forall_forall. intros p _. unfold compose.
  exact (cell_not_negative _ _).
Qed.

(** X11. No recorded value is negative: each is NaN, +inf or a finite number
    that is at least 0. *)
Theorem oa_nn_never_negative (df : list uprn_oa_row)
    (neighbours : gmap string (list string)) :
  map_Forall (λ _ v, v = NaN ∨ not_negative v) (oa_nn df neighbours).
Proof.
  intros u v. rewrite oa_nn_lookup. intros Hv.
  destruct (neighbours !! u) as [oas|]; [|done]. injection Hv as <-.
  rewrite mean_address_distance_cells.
  destruct (filter (λ r, oa11cd r = u) df) as [|c cands] eqn:E; [by left|].
  right. rewrite <- E. apply mean_not_negative.
  - rewrite E. done.
  - apply cells_not_negative.
Qed.

(** *** A mean of zero *)

Lemma Qsquare_zero (a : Q) : (a * a == 0)%Q → (a == 0)%Q.
Proof. intros Ha. by destruct (Qmult_integral _ _ Ha). Qed.

Lemma sqdist_zero_iff (a b : coord) :
  (sqdist a b == 0)%Q ↔ (a.1 == b.1)%Q ∧ (a.2 == b.2)%Q.
Proof.
  split; [|intros [? ?]; by apply sqdist_coincident].
  unfold sqdist. intros Hs.
  pose proof (Qsquare_nonneg (a.1 - b.1)) as H1.
  pose proof (Qsquare_nonneg (a.2 - b.2)) as H2.
  assert ((a.1 - b.1) * (a.1 - b.1) == 0)%Q as E1.
  { apply Qle_antisym; [|done]. rewrite <- Hs.
    rewrite <- (Qplus_0_r ((a.1 - b.1) * (a.1 - b.1))) at 1.
    by apply Qplus_le_compat; [apply Qle_refl|]. }
  assert ((a.2 - b.2) * (a.2 - b.2) == 0)%Q as E2.
  { apply Qle_antisym; [|done]. rewrite <- Hs.
    rewrite <- (Qplus_0_l ((a.2 - b.2) * (a.2 - b.2))) at 1.
    by apply Qplus_le_compat; [|apply Qle_refl]. }
  apply Qsquare_zero in E1, E2. split.
  - assert (a.1 == (a.1 - b.1) + b.1)%Q as -> by ring. rewrite E1. ring.
  - assert (a.2 == (a.2 - b.2) + b.2)%Q as -> by ring. rewrite E2. ring.
Qed.

Lemma euclid_zero_iff (a b : coord) :
  euclid a b = 0%R ↔ (a.1 == b.1)%Q ∧ (a.2 == b.2)%Q.
Proof.
  rewrite <- sqdist_zero_iff. unfold euclid, root. split.
  - intros Hz. apply sqrt_eq_0 in Hz.
    + apply eqR_Qeq. by rewrite RMicromega.Q2R_0.
    + rewrite <- RMicromega.Q2R_0. apply Qle_Rle, sqdist_nonneg.
  - intros Hz. rewrite (Qeq_eqR _ _ Hz), RMicromega.Q2R_0. apply sqrt_0.
Qed.

Lemma euclid_nonneg (a b : coord) : (0 <= euclid a b)%R.
Proof. apply root_nonneg. Qed.

Lemma foldr_Rmin_le (d : R) (ds : list R) (y : R) :
  y ∈ d :: ds → (foldr Rmin d ds <= y)%R.
Proof.
  induction ds as [|e ds IH]; simpl; intros Hin.
  - apply list_elem_of_singleton in Hin as ->. apply Rle_refl.
  - apply elem_of_cons in Hin as [->|Hin].
    + etrans; [apply Rmin_r|]. apply IH, elem_of_cons. by left.
    + apply elem_of_cons in Hin as [->|Hin]; [apply Rmin_l|].
      etrans; [apply Rmin_r|]. apply IH, elem_of_cons. by right.
Qed.

Lemma elem_of_others {A} (l : list A) (i : nat) (x : A) :
  x ∈ others l i ↔ ∃ j, j ≠ i ∧ l !! j = Some x.
Proof.
  unfold others. rewrite elem_of_app, elem_of_take. split.
  - intros [(j & Hj & Hlt)|Hin].
    + exists j. split; [lia|done].
    + apply list_elem_of_lookup in Hin as [k Hk]. rewrite lookup_drop in Hk.
      exists (S i + k). split; [lia|done].
  - intros (j & Hne & Hj). destruct (decide (j < i)) as [Hlt|Hge].
    + left. by exists j.
    + right. apply list_elem_of_lookup. exists (j - S i).
      rewrite lookup_drop. by replace (S i + (j - S i)) with j by lia.
Qed.

(** The nearest other point is at distance 0 exactly when another row of
    the neighbourhood is at the same coordinates. *)
Lemma nearest_other_distance_zero (df : list uprn_oa_row) (oas : list string)
    (i : nat) (p : uprn_oa_row) :
  df !! i = Some p →
  (nearest_other_distance df oas i = Some 0%R ↔
   ∃ j q, j ≠ i ∧ df !! j = Some q ∧ oa11cd q ∈ oas ∧ coincident p q).
Proof.
  intros Hi. unfold nearest_other_distance. rewrite Hi.
  set (L := euclid (points_from_xy (uprn p))
              <$> values (filter (λ r, oa11cd r ∈ oas) (others df i))).
  assert (∀ y, y ∈ L → (0 <= y)%R) as Hnn.
  { intros y Hy. apply list_elem_of_fmap in Hy as (c & -> & _). apply euclid_nonneg. }
  assert (0%R ∈ L ↔
          ∃ j q, j ≠ i ∧ df !! j = Some q ∧ oa11cd q ∈ oas ∧ coincident p q) as H0.
  { unfold L, values. rewrite <- list_fmap_compose. rewrite list_elem_of_fmap. split.
    - intros (q & Hq & Hin). apply list_elem_of_filter in Hin as [Hc Hin].
      apply elem_of_others in Hin as (j & Hj & Hl).
      exists j, q. repeat split; try done; symmetry in Hq;
        by apply euclid_zero_iff in Hq as [? ?].
    - intros (j & q & Hj & Hl & Hc & [Hx Hy]). exists q. split.
      + symmetry. by apply euclid_zero_iff.
      + apply list_elem_of_filter. split; [done|].
        apply elem_of_others. by exists j. }
  rewrite <- H0. destruct L as [|d ds]; [split; [done|]|].
  { intros Hin. by apply not_elem_of_nil in Hin. }
  split.
  - intros [= <-]. apply foldr_Rmin_elem.
  - intros Hin. f_equal. by apply foldr_Rmin_least.
Qed.

Lemma sum_zero (a : list float64) :
  Forall not_negative a → foldr fadd (Fin 0) a = Fin 0 →
  Forall (λ v, v = Fin 0) a.
Proof.
  induction 1 as [|v a Hv Hall IH]; [done|]. simpl. intros Hs.
  pose proof (sum_not_negative _ Hall) as Hn.
  destruct v as [x| |], (foldr fadd (Fin 0) a) as [y| |]; simpl in *; try done.
  injection Hs as Hs.
  assert (x = 0%R) as -> by lra. assert (y = 0%R) as -> by lra.
  constructor; [done|]. by apply IH.
Qed.

Lemma mean_zero_iff (a : list float64) :
  Forall not_negative a →
  (mean a = Fin 0 ↔ a ≠ [] ∧ Forall (λ v, v = Fin 0) a).
Proof.
  intros Hall. split; [|intros [? ?]; by apply mean_zeros].
  intros Hm. destruct a as [|v a]; [done|]. split; [done|].
  unfold mean in Hm. apply sum_zero; [done|].
  destruct (foldr fadd (Fin 0) (v :: a)) as [x| |]; simpl in Hm; [|done|done].
  injection Hm as Hm. f_equal.
  assert (INR (length (v :: a)) ≠ 0%R) as Hn by (apply not_0_INR; simpl; lia).
  unfold Rdiv in Hm. apply Rmult_integral in Hm as [Hm|Hm]; [done|].
  exfalso. by apply (Rinv_neq_0_compat _ Hn).
Qed.

(** X12. For a unit that is in its own neighbourhood, the recorded mean is 0
    exactly when the unit has a point and each of its points shares its
    coordinates with another row of the neighbourhood. *)
Theorem oa_nn_zero_iff_coincident (df : list uprn_oa_row)
    (neighbours : gmap string (list string)) (u : string) (oas : list string) :
  neighbours !! u = Some oas → u ∈ oas →
  (oa_nn df neighbours !! u = Some (Fin 0) ↔
   filter (λ r, oa11cd r = u) df ≠ [] ∧
   ∀ i p, df !! i = Some p → oa11cd p = u →
     ∃ j q, j ≠ i ∧ df !! j = Some q ∧ oa11cd q ∈ oas ∧ coincident p q).
Proof.
  intros Hnb Hu. rewrite oa_nn_lookup, Hnb. simpl.
  assert (Forall not_negative
            ((λ i, from_option Fin PInf (nearest_other_distance df oas i))
             <$> assigned df u)) as Hnn.
  { apply Forall_fmap, Forall_forall. intros i Hi.
    apply elem_of_assigned in Hi as (p & Hp & Hc). simpl.
    rewrite <- (cell_nearest_other df oas i p Hp) by (by rewrite Hc).
    exact (cell_not_negative _ _). }
  split.
  - intros [= Hm]. rewrite mean_address_distance_positions in Hm by done.
    apply mean_zero_iff in Hm as [Hne Hall]; [|done]. split.
    + intros E. apply assigned_nil_iff in E. rewrite E in Hne. done.
    + intros i p Hp Hc.
      apply Forall_fmap in Hall. rewrite Forall_forall in Hall.
      specialize (Hall i (proj2 (elem_of_assigned df u i) (ex_intro _ p (conj Hp Hc)))).
      simpl in Hall. apply (nearest_other_distance_zero df oas i p Hp).
      destruct (nearest_other_distance df oas i); simpl in Hall; [|done].
      by injection Hall as ->.
  - intros [Hne Hall]. f_equal.
    rewrite mean_address_distance_positions by done.
    apply mean_zero_iff; [done|]. split.
    + intros E. apply fmap_nil_inv in E. by apply assigned_nil_iff in E.
    + apply Forall_fmap, Forall_forall. intros i Hi.
      apply elem_of_assigned in Hi as (p & Hp & Hc). simpl.
      destruct (Hall i p Hp Hc) as (j & q & Hq).
      assert (nearest_other_distance df oas i = Some 0%R) as ->; [|done].
      apply (nearest_other_distance_zero df oas i p Hp). by exists j, q.
Qed.

(** *** Two points *)

Lemma sqdist_sym (a b : coord) : (sqdist a b == sqdist b a)%Q.
Proof. unfold sqdist. ring. Qed.

Lemma euclid_sym (a b : coord) : euclid a b = euclid b a.
Proof. apply root_proper, sqdist_sym. Qed.

Lemma sum_replicate (n : nat) (d : R) :
  foldr Rplus 0%R (replicate n d) = (INR n * d)%R.
Proof.
  induction n as [|n IH]; [simpl; lra|].
  rewrite S_INR. cbn [replicate foldr]. rewrite IH. lra.
Qed.

Lemma mean_const (a : list float64) (d : R) :
  a ≠ [] → Forall (λ v, v = Fin d) a → mean a = Fin d.
Proof.
  intros Hne Hall.
  assert (a = Fin <$> replicate (length a) d) as ->.
  { clear Hne. induction Hall as [|v a -> _ IH]; [done|].
    cbn [length replicate]. rewrite fmap_cons. by f_equal. }
  rewrite mean_Fin.
  - f_equal. rewrite length_replicate, sum_replicate.
    assert (INR (length a) ≠ 0%R) as Hn.
    { apply not_0_INR. destruct a; [done|]. simpl. lia. }
    by field.
  - destruct a; done.
Qed.

(** X13. When the points assigned to a neighbourhood are exactly two, the
    nearest-neighbour distance computed for each of them is the distance
    between the two, and so is the mean recorded for a unit of the
    neighbourhood that has a point. *)
Theorem pair_distance (df : list uprn_oa_row) (oas : list string)
    (r1 r2 : uprn_oa_row) :
  filter (λ r, oa11cd r ∈ oas) df = [r1; r2] →
  (∀ r, r ∈ [r1; r2] →
     column 1 (query (cKDTree (values (filter (λ r, oa11cd r ∈ oas) df)))
                     (values [r]) 2)
     = [Fin (euclid (points_from_xy (uprn r1)) (points_from_xy (uprn r2)))]) ∧
  (∀ u, u ∈ oas → filter (λ r, oa11cd r = u) df ≠ [] →
     mean_address_distance df u oas
     = Fin (euclid (points_from_xy (uprn r1)) (points_from_xy (uprn r2)))).
Proof.
  intros Hf.
  set (c1 := points_from_xy (uprn r1)). set (c2 := points_from_xy (uprn r2)).
  assert (∀ r, r ∈ [r1; r2] →
            nth 1 (query_point (cKDTree (values [r1; r2]))
                               (points_from_xy (uprn r)) 2) NaN
            = Fin (euclid c1 c2)) as Hcell.
  { intros r Hr. rewrite query_point_second.
    unfold cKDTree, values. rewrite !fmap_cons, fmap_nil. fold c1 c2.
    apply elem_of_cons in Hr as [->|Hr];
      [|apply list_elem_of_singleton in Hr as ->]; fold c1 c2.
    - rewrite (second_of_sorted _ [] [sqdist c1 c2] (sqdist c1 c1)).
      + done.
      + apply merge_sort_Permutation.
      + apply Sorted_merge_sort, _.
      + intros q Hq. rewrite sqdist_self. simpl in Hq.
        apply list_elem_of_singleton in Hq as ->. apply sqdist_nonneg.
    - rewrite (second_of_sorted _ [sqdist c2 c1] [] (sqdist c2 c2)).
      + simpl. f_equal. apply euclid_sym.
      + apply merge_sort_Permutation.
      + apply Sorted_merge_sort, _.
      + intros q Hq. rewrite sqdist_self. simpl in Hq.
        apply list_elem_of_singleton in Hq as ->. apply sqdist_nonneg. }
  split.
  - intros r Hr. rewrite Hf. unfold column, query. simpl. by rewrite Hcell.
  - intros u Hu Hcand. rewrite mean_address_distance_cells, Hf.
    apply mean_const.
    + intros E. by apply fmap_nil_inv in E.
    + apply Forall_fmap, Forall_forall. intros p Hp. simpl.
      apply Hcell. rewrite <- Hf. apply list_elem_of_filter in Hp as [Hc Hp].
      apply list_elem_of_filter. split; [by rewrite Hc|done].
Qed.

(** *** A larger neighbourhood *)

Lemma fadd_mono (x y s t : float64) : fle x y → fle s t → fle (fadd x s) (fadd y t).
Proof. destruct x, y, s, t; simpl; try done. lra. Qed.

Lemma sum_mono (a b : list float64) :
  Forall2 fle a b → fle (foldr fadd (Fin 0) a) (foldr fadd (Fin 0) b).
Proof.
  induction 1 as [|x y a b Hxy _ IH]; simpl; [lra|]. by apply fadd_mono.
Qed.

Lemma mean_mono (a b : list float64) :
  a ≠ [] → Forall2 fle a b → fle (mean a) (mean b).
Proof.
  intros Hne Hab. pose proof (Forall2_length _ _ _ Hab) as Hlen.
  pose proof (sum_mono _ _ Hab) as Hs.
  unfold mean. destruct a as [|x a]; [done|]. destruct b as [|y b]; [done|].
  rewrite <- Hlen.
  destruct (foldr fadd (Fin 0) (x :: a)) as [s| |],
           (foldr fadd (Fin 0) (y :: b)) as [t| |]; try done.
  cbn [fdiv_count fle] in *. unfold Rdiv.
  apply Rmult_le_compat_r; [|done].
  apply Rlt_le, Rinv_0_lt_compat, lt_0_INR. cbn [length]. lia.
Qed.

Lemma nearest_other_distance_larger (df : list uprn_oa_row)
    (oas oas' : list string) (i : nat) :
  (∀ c, c ∈ oas → c ∈ oas') → is_Some (df !! i) →
  fle (from_option Fin PInf (nearest_other_distance df oas' i))
      (from_option Fin PInf (nearest_other_distance df oas i)).
Proof.
  intros Hsub [p Hp]. unfold nearest_other_distance. rewrite Hp.
  set (L := euclid (points_from_xy (uprn p))
              <$> values (filter (λ r, oa11cd r ∈ oas) (others df i))).
  set (L' := euclid (points_from_xy (uprn p))
               <$> values (filter (λ r, oa11cd r ∈ oas') (others df i))).
  assert (∀ y, y ∈ L → y ∈ L') as Hin.
  { intros y. unfold L, L', values. rewrite <- !list_fmap_compose.
    rewrite !list_elem_of_fmap. intros (q & -> & Hq). exists q. split; [done|].
    apply list_elem_of_filter in Hq as [Hc Hq].
    apply list_elem_of_filter. split; [by apply Hsub|done]. }
  destruct L as [|d ds].
  { destruct L'; simpl; done. }
  destruct L' as [|d' ds'].
  { specialize (Hin d (list_elem_of_here _ _)). by apply not_elem_of_nil in Hin. }
  simpl. apply foldr_Rmin_le, Hin, foldr_Rmin_elem.
Qed.

(** X14. Counting the points of more neighbouring units never increases the
    value recorded for a unit: with a neighbourhood that contains the unit
    and a larger one, the value for the larger is at most the value for the
    smaller, as long as the unit has a point. *)
Theorem oa_nn_larger_neighbourhood (df : list uprn_oa_row)
    (neighbours neighbours' : gmap string (list string)) (u : string)
    (oas oas' : list string) :
  neighbours !! u = Some oas → neighbours' !! u = Some oas' →
  u ∈ oas → (∀ c, c ∈ oas → c ∈ oas') →
  filter (λ r, oa11cd r = u) df ≠ [] →
  ∃ v v', oa_nn df neighbours !! u = Some v ∧
          oa_nn df neighbours' !! u = Some v' ∧ fle v' v.
Proof.
  intros Hnb Hnb' Hu Hsub Hne.
  exists (mean_address_distance df u oas), (mean_address_distance df u oas').
  rewrite !oa_nn_lookup, Hnb, Hnb'. split; [done|]. split; [done|].
  rewrite !mean_address_distance_positions by auto.
  apply mean_mono.
  - intros E. apply fmap_nil_inv in E. by apply assigned_nil_iff in E.
  - apply Forall2_fmap, Forall2_same_length_lookup. split; [done|].
    intros i j j' Hj Hj'. assert (j' = j) as -> by congruence.
    apply nearest_other_distance_larger; [done|].
    assert (j ∈ assigned df u) as Hin by (apply list_elem_of_lookup; eauto).
    apply elem_of_assigned in Hin as (p & Hp & _). by exists p.
Qed.

(** *** Moving the origin *)






(** ** The datasets of the density plots *)

Lemma merge_row_absent {A} (l : list (string * float64)) (k : string) (x : A) :
  k ∉ l.*1 →
  (l ≫= λ r, if decide (k = r.1) then [(x, r.2)] else []) = [].
Proof.
  induction l as [|[k' v'] l IH]; [done|]. rewrite fmap_cons, not_elem_of_cons.
  intros [Hne Hl]. rewrite bind_cons. simpl.
  rewrite decide_False by done. by apply IH.
Qed.

Lemma merge_row_present {A} (l : list (string * float64)) (k : string)
    (v : float64) (x : A) :
  NoDup l.*1 → (k, v) ∈ l →
  (l ≫= λ r, if decide (k = r.1) then [(x, r.2)] else []) = [(x, v)].
Proof.
  induction l as [|[k' v'] l IH]; intros Hnd Hin.
  { by apply not_elem_of_nil in Hin. }
  rewrite fmap_cons in Hnd. apply NoDup_cons in Hnd as [Hk' Hnd].
  rewrite bind_cons. simpl. apply elem_of_cons in Hin as [[= <- <-]|Hin].
  - rewrite decide_True by done. by rewrite merge_row_absent.
  - assert (k ≠ k') as Hne.
    { intros ->. apply Hk', list_elem_of_fmap. by exists (k', v). }
    rewrite decide_False by done. by apply IH.
Qed.

Lemma merge_row_nns {A} (m : gmap string float64) (k : string) (x : A) :
  (nns m ≫= λ r, if decide (k = r.1) then [(x, r.2)] else [])
  = match m !! k with Some v => [(x, v)] | None => [] end.
Proof.
  unfold nns. destruct (m !! k) as [v|] eqn:E.
  - apply merge_row_present; [apply NoDup_fst_map_to_list|].
    by apply elem_of_map_to_list.
  - apply merge_row_absent. intros Hin.
    apply list_elem_of_fmap in Hin as ([k' v] & -> & Hin).
    apply elem_of_map_to_list in Hin. simpl in E. congruence.
Qed.

Lemma kde_dataset_omap (ruc11_oa : list ruc_row) (oa_nn : gmap string float64)
    (col : ruc_row → option string) (setting : string) :
  kde_dataset ruc11_oa oa_nn col setting =
  omap (λ r, if decide (col r = Some setting)
             then (λ v, match v with NaN => Fin 0 | _ => v end)
                    <$> oa_nn !! Output_Area_2011_Code r
             else None) ruc11_oa.
Proof.
  unfold kde_dataset, fillna, loc_setting, merge.
  induction ruc11_oa as [|r ruc IH]; [done|].
  rewrite bind_cons, filter_app, !fmap_app, IH. clear IH.
  rewrite merge_row_nns. cbn [omap list_omap].
  destruct (oa_nn !! Output_Area_2011_Code r) as [v|].
  - destruct (decide (col r = Some setting)) as [Hc|Hc].
    + rewrite filter_cons_True by done. done.
    + rewrite filter_cons_False by done. done.
  - by destruct (decide (col r = Some setting)).
Qed.

(** X16. The dataset of a density plot holds one value for each row of the
    classification that has the plotted setting and whose code is a key of
    the estimator's output, in the order of the classification: the recorded
    mean, with 0 in place of NaN.  Rows without a recorded value are left
    out. *)
Theorem kde_dataset_rows (ruc11_oa : list ruc_row) (oa_nn : gmap string float64)
    (col : ruc_row → option string) (setting : string) :
  kde_dataset ruc11_oa oa_nn col setting =
  omap (λ r, if decide (col r = Some setting)
             then (λ v, match v with NaN => Fin 0 | _ => v end)
                    <$> oa_nn !! Output_Area_2011_Code r
             else None) ruc11_oa.
Proof. apply kde_dataset_omap. Qed.

(** X17. No NaN reaches a density estimate, but the two degenerate units
    do: a unit of the plotted setting without any point enters the dataset
    as 0, and one whose single point has no other point in the neighbourhood
    enters it as +inf. *)
Theorem kde_dataset_degenerate (ruc11_oa : list ruc_row)
    (df : list uprn_oa_row) (neighbours : gmap string (list string))
    (col : ruc_row → option string) (setting : string) :
  (NaN ∉ kde_dataset ruc11_oa (oa_nn df neighbours) col setting) ∧
  (∀ r oas, r ∈ ruc11_oa → col r = Some setting →
     neighbours !! Output_Area_2011_Code r = Some oas →
     (filter (λ p, oa11cd p = Output_Area_2011_Code r) df = [] →
      Fin 0 ∈ kde_dataset ruc11_oa (oa_nn df neighbours) col setting) ∧
     (filter (λ p, oa11cd p = Output_Area_2011_Code r) df ≠ [] →
      length (filter (λ p, oa11cd p ∈ oas) df) < 2 →
      PInf ∈ kde_dataset ruc11_oa (oa_nn df neighbours) col setting)).
Proof.
  rewrite kde_dataset_omap. split.
  - intros Hin. apply list_elem_of_omap in Hin as (r & _ & Hr).
    destruct (decide (col r = Some setting)); [|done].
    destruct (oa_nn df neighbours !! Output_Area_2011_Code r) as [[x| |]|];
      simpl in Hr; congruence.
  - intros r oas Hr Hcol Hnb.
    assert (oa_nn df neighbours !! Output_Area_2011_Code r
            = Some (mean_address_distance df (Output_Area_2011_Code r) oas)) as Hv
      by by rewrite oa_nn_lookup, Hnb.
    destruct (mean_address_distance_cases df (Output_Area_2011_Code r) oas)
      as [[Hc E]|[(Hc & Hl & E)|(Hc & Hl & m & E)]]; rewrite E in Hv.
    + split; [|done]. intros _. apply list_elem_of_omap. exists r.
      split; [done|]. rewrite decide_True by done. by rewrite Hv.
    + split; [done|]. intros _ _. apply list_elem_of_omap. exists r.
      split; [done|]. rewrite decide_True by done. by rewrite Hv.
    + split; [done|]. intros _ ?. lia.
Qed.

(** ** The table of group means *)

Lemma loc_merge_omap (ruc11_oa : list ruc_row) (oa_nn : gmap string float64)
    (col : ruc_row → option string) (setting : string) :
  loc_setting col setting (merge ruc11_oa (nns oa_nn)) =
  omap (λ r, if decide (col r = Some setting)
             then oa_nn !! Output_Area_2011_Code r else None) ruc11_oa.
Proof.
  unfold loc_setting, merge.
  induction ruc11_oa as [|r ruc IH]; [done|].
  rewrite bind_cons, filter_app, !fmap_app, IH. clear IH.
  rewrite merge_row_nns. cbn [omap list_omap].
  destruct (oa_nn !! Output_Area_2011_Code r) as [v|].
  - destruct (decide (col r = Some setting)) as [Hc|Hc].
    + rewrite filter_cons_True by done. done.
    + rewrite filter_cons_False by done. done.
  - by destruct (decide (col r = Some setting)).
Qed.

Lemma elem_of_group (ruc11_oa : list ruc_row) (oa_nn : gmap string float64)
    (col : ruc_row → option string) (setting : string) (v : float64) :
  v ∈ List.filter (λ v, negb (is_nan v))
        (loc_setting col setting (merge ruc11_oa (nns oa_nn))) ↔
  v ≠ NaN ∧ ∃ r, r ∈ ruc11_oa ∧ col r = Some setting ∧
                 oa_nn !! Output_Area_2011_Code r = Some v.
Proof.
  rewrite loc_merge_omap, list_elem_of_In, filter_In, <- list_elem_of_In.
  rewrite list_elem_of_omap. split.
  - intros [(r & Hr & Hv) Hn]. split; [by destruct v|]. exists r.
    destruct (decide (col r = Some setting)); done.
  - intros [Hn (r & Hr & Hc & Hv)]. split; [|by destruct v].
    exists r. split; [done|]. by rewrite decide_True.
Qed.

Lemma sum_without_nan (a : list float64) :
  Forall (λ v, v ≠ NaN) a →
  foldr fadd (Fin 0) a ≠ NaN ∧ (foldr fadd (Fin 0) a = PInf ↔ PInf ∈ a).
Proof.
  induction 1 as [|v a Hv _ [IH1 IH2]]; simpl.
  - split; [done|]. split; [done|]. intros Hin. by apply not_elem_of_nil in Hin.
  - rewrite elem_of_cons.
    destruct v as [x| |], (foldr fadd (Fin 0) a) as [y| |]; simpl; try done.
    + split; [done|]. split; [done|]. intros [?|Hin]; [done|].
      by apply IH2 in Hin.
    + split; [done|]. split; [|done]. intros _. right. by apply IH2.
    + split; [done|]. split; [|done]. intros _. by left.
    + split; [done|]. split; [|done]. intros _. by left.
Qed.

Lemma mean_without_nan (a : list float64) :
  Forall (λ v, v ≠ NaN) a →
  (mean a = NaN ↔ a = []) ∧ (mean a = PInf ↔ PInf ∈ a).
Proof.
  intros Hall. destruct (sum_without_nan a Hall) as [H1 H2].
  unfold mean. destruct a as [|v a].
  { split; [done|]. split; [done|]. intros Hin. by apply not_elem_of_nil in Hin. }
  rewrite <- H2.
  destruct (foldr fadd (Fin 0) (v :: a)) as [x| |]; simpl; [|done|done].
  split; split; done.
Qed.

(** X21. In the table of group means null values are skipped: the mean of a
    group is NaN exactly when no unit of the group has a recorded value other
    than NaN, and it is +inf exactly when some unit of the group has the
    recorded value +inf. *)
Theorem group_mean_degenerate (ruc11_oa : list ruc_row)
    (oa_nn : gmap string float64) (col : ruc_row → option string)
    (setting : string) :
  (group_mean ruc11_oa oa_nn col setting = NaN ↔
   ∀ r v, r ∈ ruc11_oa → col r = Some setting →
          oa_nn !! Output_Area_2011_Code r = Some v → v = NaN) ∧
  (group_mean ruc11_oa oa_nn col setting = PInf ↔
   ∃ r, r ∈ ruc11_oa ∧ col r = Some setting ∧
        oa_nn !! Output_Area_2011_Code r = Some PInf).
Proof.
  unfold group_mean.
  set (l := List.filter (λ v, negb (is_nan v))
              (loc_setting col setting (merge ruc11_oa (nns oa_nn)))).
  assert (Forall (λ v, v ≠ NaN) l) as Hall.
  { apply Forall_forall. intros v Hv. by apply elem_of_group in Hv as [? _]. }
  destruct (mean_without_nan l Hall) as [-> ->]. split.
  - split.
    + intros Hnil r v Hr Hc Hv. destruct (is_nan v) eqn:Hn; [by destruct v|].
      assert (v ∈ l) as Hin.
      { apply elem_of_group. split; [by destruct v|]. by exists r. }
      rewrite Hnil in Hin. by apply not_elem_of_nil in Hin.
    + intros Hnone. destruct l as [|v l'] eqn:E; [done|].
      assert (v ∈ l) as Hin by (rewrite E; by left).
      apply elem_of_group in Hin as [Hn (r & Hr & Hc & Hv)].
      by specialize (Hnone r v Hr Hc Hv).
  - unfold l. rewrite elem_of_group. split; [by intros [_ ?]|]. by intros ?.
Qed.

(** ** The category names and the palettes *)

(** X18. The renaming turns the ten category names of the lookup sheet into
    the ten keys of the first palette, in order; and a row whose category is
    one of them gets a condensed class, which is one of the seven keys of
    the last palette.  Neither palette repeats a key, so such a row is drawn
    in exactly one group of each plot. *)
Theorem categories_match_palettes (r : ruc_row) (c : string) :
  c ∈ categories_10_fold →
  RUC_2011_10_fold r = Some (rename_categories renames c) →
  rename_categories renames <$> categories_10_fold = colours_10 ∧
  NoDup colours_10 ∧ NoDup colours_7 ∧
  rename_categories renames c ∈ colours_10 ∧
  ∃ s, condensed_ru11 r = Some s ∧ s ∈ colours_7.
Proof.
  intros Hc Hr.
  split; [by vm_compute|].
  split; [apply (bool_decide_unpack _); by vm_compute|].
  split; [apply (bool_decide_unpack _); by vm_compute|].
  unfold condensed_ru11. rewrite Hr. clear Hr.
  apply list_elem_of_In in Hc. simpl in Hc.
  repeat (destruct Hc as [<-|Hc];
          [split; [apply (bool_decide_unpack _); by vm_compute|];
           eexists; split; [vm_compute; reflexivity|];
           apply (bool_decide_unpack _); by vm_compute|]).
  done.
Qed.

(** ** The builder and the estimator together *)

Lemma mean_address_distance_spec (df : list uprn_oa_row) (u : string)
    (oas : list string) (m : R) :
  u ∈ oas → mean_nearest_other df u oas = Some m →
  mean_address_distance df u oas = Fin m.
Proof.
  intros Hu Hm. rewrite mean_address_distance_positions by done.
  unfold mean_nearest_other in Hm.
  destruct (assigned df u) as [|i idx] eqn:Ea; [done|].
  destruct (mapM (nearest_other_distance df oas) (i :: idx)) as [ds|] eqn:Eds;
    [|done].
  simpl in Hm. injection Hm as <-.
  apply mapM_Some in Eds.
  rewrite (from_option_Fin_fmap _ _ _ Eds).
  apply mean_Fin. intros ->. by apply Forall2_nil_inv_r in Eds.
Qed.

Lemma mean_nearest_other_defined (df : list uprn_oa_row) (u : string)
    (oas : list string) :
  u ∈ oas → filter (λ r, oa11cd r = u) df ≠ [] →
  2 ≤ length (filter (λ r, oa11cd r ∈ oas) df) →
  is_Some (mean_nearest_other df u oas).
Proof.
  intros Hu Hcand Hlen. unfold mean_nearest_other.
  destruct (assigned df u) as [|i idx] eqn:Ea.
  { by apply assigned_nil_iff in Ea. }
  assert (is_Some (mapM (nearest_other_distance df oas) (i :: idx))) as [ds Eds].
  { apply mapM_is_Some, Forall_forall. intros j Hj.
    rewrite <- Ea in Hj. apply elem_of_assigned in Hj as (p & Hp & Hc).
    apply (nearest_other_distance_is_Some df oas j p); [done| |done].
    by rewrite Hc. }
  rewrite Eds. by eexists.
Qed.

Section Together.
Context {G : Type} `{Geometry G}.

Lemma own_code_listed (oa_2011 : list (oa_row G)) (a : oa_row G) :
  Forall (λ r, is_empty (geometry r) = false) oa_2011 → a ∈ oa_2011 →
  ∃ oas, neighbours oa_2011 !! OA11CD a = Some oas ∧ OA11CD a ∈ oas.
Proof.
  intros Hne Ha.
  destruct (neighbours_lookup_elem oa_2011 a Ha) as (r & Hr & Hc & Hl).
  eexists. split; [exact Hl|].
  apply elem_of_not_disjoint_codes. exists r. split; [done|]. split; [done|].
  rewrite disjoint_self. by eapply (proj1 (Forall_forall _ _) Hne).
Qed.

(** X19. The adjacency dict that the builder makes from polygons that have
    points meets the estimator's precondition: for every unit of the layer,
    the recorded value is the mean distance to the nearest other point
    whenever that mean is defined, and it is defined exactly when the unit
    has a point and its neighbourhood two. *)
Theorem builder_then_estimator (oa_2011 : list (oa_row G))
    (df : list uprn_oa_row) (a : oa_row G) :
  Forall (λ r, is_empty (geometry r) = false) oa_2011 → a ∈ oa_2011 →
  ∃ oas, neighbours oa_2011 !! OA11CD a = Some oas ∧
    (∀ m, mean_nearest_other df (OA11CD a) oas = Some m →
          oa_nn df (neighbours oa_2011) !! OA11CD a = Some (Fin m)) ∧
    (is_Some (mean_nearest_other df (OA11CD a) oas) ↔
       filter (λ r, oa11cd r = OA11CD a) df ≠ [] ∧
       2 ≤ length (filter (λ r, oa11cd r ∈ oas) df)).
Proof.
  intros Hne Ha. destruct (own_code_listed oa_2011 a Hne Ha) as (oas & Hl & Hin).
  exists oas. split; [done|]. split.
  - intros m Hm. rewrite oa_nn_lookup, Hl. simpl. f_equal.
    by apply mean_address_distance_spec.
  - split; [|intros [? ?]; by apply mean_nearest_other_defined].
    intros [m Hm]. apply mean_address_distance_spec in Hm; [|done].
    destruct (mean_address_distance_cases df (OA11CD a) oas)
      as [[_ E]|[(_ & _ & E)|(Hc & Hlen & _)]]; [congruence|congruence|done].
Qed.

(** X20. With unique codes and polygons that have points, the points of a
    unit whose polygon is disjoint from that of [a] do not influence the
    value recorded for [a]. *)
Theorem disjoint_units_no_influence (oa_2011 : list (oa_row G))
    (df extra : list uprn_oa_row) (a : oa_row G) :
  NoDup (OA11CD <$> oa_2011) →
  Forall (λ r, is_empty (geometry r) = false) oa_2011 → a ∈ oa_2011 →
  Forall (λ p, ∃ b, b ∈ oa_2011 ∧ oa11cd p = OA11CD b ∧
                    disjoint (geometry b) (geometry a) = true) extra →
  oa_nn (df ++ extra) (neighbours oa_2011) !! OA11CD a
  = oa_nn df (neighbours oa_2011) !! OA11CD a.
Proof.
  intros Hnd Hne Ha Hextra.
  rewrite !oa_nn_lookup, (neighbours_lookup_unique oa_2011 a Hnd Ha). simpl.
  f_equal. apply mean_address_distance_perm.
  - apply elem_of_not_disjoint_codes. exists a. split; [done|]. split; [done|].
    rewrite disjoint_self. by eapply (proj1 (Forall_forall _ _) Hne).
  - rewrite filter_app.
    assert (filter (λ r, oa11cd r ∈ not_disjoint_codes oa_2011 (geometry a)) extra
            = []) as ->; [|by rewrite app_nil_r].
    induction Hextra as [|p extra (b & Hb & Hc & Hd) _ IH]; [done|].
    rewrite filter_cons_False; [done|].
    rewrite Hc. intros Hin.
    apply elem_of_not_disjoint_codes in Hin as (r & Hr & Hrc & Hrd).
    rewrite (unique_code oa_2011 r b Hnd Hr Hb Hrc) in Hrd. congruence.
Qed.

End Together.

(** ** The further properties on the sample tables *)

Section Samples.
Import Box.

Lemma three_squares_codes_unique : NoDup (OA11CD <$> three_squares).
Proof. apply (bool_decide_unpack _). vm_compute. exact I. Qed.

Lemma neighbours_not_disjoint_witness :
  ∃ la, neighbours three_squares !! "E00000002" = Some la ∧
        ∀ b, b ∈ three_squares →
          (OA11CD b ∈ la
           ↔ disjoint (geometry b) (unit_square 1) = false).
Proof.
  apply (neighbours_not_disjoint three_squares
           {| OA11CD := "E00000002"; geometry := unit_square 1 |}).
  - exact three_squares_codes_unique.
  - unfold three_squares. set_solver.
Defined.

Lemma neighbours_lists_within_layer_witness :
  three_codes `sublist_of` (OA11CD <$> three_squares) ∧ NoDup three_codes.
Proof.
  destruct (neighbours_lists_within_layer three_squares "E00000002" three_codes
              three_squares_neighbours) as [Hsub Hnd].
  split; [exact Hsub|]. apply Hnd, three_squares_codes_unique.
Defined.

Lemma neighbours_last_row_wins_witness :
  neighbours repeated_code_layer !! "E00000001"
  = Some (not_disjoint_codes repeated_code_layer (unit_square 2)).
Proof.
  apply (neighbours_last_row_wins
           [ {| OA11CD := "E00000001"; geometry := unit_square 0 |} ]
           [ {| OA11CD := "E00000002"; geometry := unit_square 1 |} ]
           {| OA11CD := "E00000001"; geometry := unit_square 2 |}).
  repeat constructor. simpl. discriminate.
Defined.

Lemma some_buildings_bound :
  length (List.filter (λ b : building_row box, where_building (feature_code b))
                      some_buildings) ≤ 18 * 1000 * 1000.
Proof.
  change (length (List.filter (λ b : building_row box, where_building (feature_code b))
                              some_buildings)) with 2.
  lia.
Qed.

Lemma building_uprns_selected_witness :
  (1 ∈ building_uprns three_points some_buildings)%Z.
Proof.
  apply (proj2 (building_uprns_selected three_points some_buildings 1)
               some_buildings_bound).
  exists (pt 1 (1 # 2) (1 # 2)),
         {| feature_code := 15014; footprint := unit_square 0 |}.
  split; [unfold three_points; set_solver|]. split; [reflexivity|].
  split; [unfold some_buildings; set_solver|]. split; [set_solver|].
  reflexivity.
Defined.

Lemma uprn_gdf_buildings_one_pass_witness :
  uprn_gdf_buildings three_points some_buildings
  = isin_uprns three_points (building_uprns_one_pass three_points some_buildings).
Proof.
  apply (proj2 (uprn_gdf_buildings_one_pass three_points some_buildings)
               some_buildings_bound).
Defined.

Lemma three_points_uprns_unique : NoDup (UPRN <$> three_points).
Proof. apply (bool_decide_unpack _). vm_compute. exact I. Qed.

Lemma uprn_gdf_buildings_rows_witness :
  pt 2 (3 # 2) (1 # 2) ∈ uprn_gdf_buildings three_points some_buildings ↔
  pt 2 (3 # 2) (1 # 2) ∈ three_points ∧
  ∃ b, b ∈ take (18 * 1000 * 1000)
                (List.filter (λ b : building_row box, where_building (feature_code b))
                             some_buildings) ∧
       within (points_from_xy (pt 2 (3 # 2) (1 # 2))) (footprint b) = true.
Proof.
  apply (proj2 (uprn_gdf_buildings_rows three_points some_buildings
                  (pt 2 (3 # 2) (1 # 2)))
               three_points_uprns_unique).
Defined.

Lemma uprn_oa2011_at_most_once_witness :
  uprn <$> uprn_oa2011 three_points three_squares ⊆+ three_points.
Proof.
  apply (uprn_oa2011_at_most_once three_points three_squares
           three_squares_non_overlapping).
Defined.

Lemma three_points_covered : covered three_points three_squares.
Proof.
  intros p Hp. unfold three_points in Hp.
  apply elem_of_cons in Hp as [->|Hp];
    [exists {| OA11CD := "E00000001"; geometry := unit_square 0 |};
     split; [unfold three_squares; set_solver|reflexivity]|].
  apply elem_of_cons in Hp as [->|Hp];
    [exists {| OA11CD := "E00000002"; geometry := unit_square 1 |};
     split; [unfold three_squares; set_solver|reflexivity]|].
  apply list_elem_of_singleton in Hp as ->.
  exists {| OA11CD := "E00000003"; geometry := unit_square 2 |}.
  split; [unfold three_squares; set_solver|reflexivity].
Qed.

Lemma uprn_oa2011_exactly_once_witness :
  uprn <$> uprn_oa2011 three_points three_squares ≡ₚ three_points.
Proof.
  apply (uprn_oa2011_exactly_once three_points three_squares
           three_squares_non_overlapping).
  - change (length three_squares) with 3. lia.
  - exact three_points_covered.
Defined.

Lemma oa_nn_zero_iff_coincident_witness :
  oa_nn coincident_pair lone_neighbours !! "E00000001" = Some (Fin 0) ↔
  filter (λ r, oa11cd r = "E00000001") coincident_pair ≠ [] ∧
  ∀ i p, coincident_pair !! i = Some p → oa11cd p = "E00000001" →
    ∃ j q, j ≠ i ∧ coincident_pair !! j = Some q ∧
           oa11cd q ∈ ["E00000001"] ∧ coincident p q.
Proof.
  apply (oa_nn_zero_iff_coincident coincident_pair lone_neighbours
           "E00000001" ["E00000001"]).
  - reflexivity.
  - set_solver.
Defined.

Lemma pair_distance_witness :
  mean_address_distance three_tagged "E00000001" ["E00000001"; "E00000002"]
  = Fin (euclid (1 # 2, 1 # 2) (3 # 2, 1 # 2)).
Proof.
  refine (proj2 (pair_distance three_tagged ["E00000001"; "E00000002"]
                   {| uprn := pt 1 (1 # 2) (1 # 2); oa11cd := "E00000001" |}
                   {| uprn := pt 2 (3 # 2) (1 # 2); oa11cd := "E00000002" |}
                   _) "E00000001" _ _).
  - reflexivity.
  - set_solver.
  - vm_compute. discriminate.
Defined.

Lemma oa_nn_larger_neighbourhood_witness :
  ∃ v v', oa_nn three_tagged lone_neighbours !! "E00000001" = Some v ∧
          oa_nn three_tagged (neighbours three_squares) !! "E00000001" = Some v' ∧
          fle v' v.
Proof.
  apply (oa_nn_larger_neighbourhood three_tagged lone_neighbours
           (neighbours three_squares) "E00000001"
           ["E00000001"] ["E00000001"; "E00000002"]).
  - reflexivity.
  - exact three_squares_neighbours_left.
  - set_solver.
  - intros c Hc. apply list_elem_of_singleton in Hc as ->.
    apply elem_of_cons. by left.
  - vm_compute. discriminate.
Defined.

Lemma kde_dataset_degenerate_witness :
  PInf ∈ kde_dataset three_ruc (oa_nn lone_point lone_neighbours)
           RUC_2011_2_fold "Urban".
Proof.
  refine (proj2 (proj2 (kde_dataset_degenerate three_ruc lone_point
                          lone_neighbours RUC_2011_2_fold "Urban")
                       {| Output_Area_2011_Code := "E00000001";
                          RUC_2011_10_fold := Some "Urban city and town";
                          RUC_2011_2_fold := Some "Urban" |}
                       ["E00000001"] _ _ _) _ _).
  - unfold three_ruc. set_solver.
  - reflexivity.
  - reflexivity.
  - vm_compute. discriminate.
  - vm_compute. lia.
Defined.

Lemma categories_match_palettes_witness :
  rename_categories renames <$> categories_10_fold = colours_10 ∧
  NoDup colours_10 ∧ NoDup colours_7 ∧
  "Urban city and town" ∈ colours_10 ∧
  ∃ s, condensed_ru11
         {| Output_Area_2011_Code := "E00000001";
            RUC_2011_10_fold := Some "Urban city and town";
            RUC_2011_2_fold := Some "Urban" |} = Some s ∧ s ∈ colours_7.
Proof.
  apply (categories_match_palettes
           {| Output_Area_2011_Code := "E00000001";
              RUC_2011_10_fold := Some "Urban city and town";
              RUC_2011_2_fold := Some "Urban" |}
           ("Urban city and town" +:+ nbsp +:+ nbsp)).
  - unfold categories_10_fold. set_solver.
  - reflexivity.
Defined.

Lemma three_squares_have_points :
  Forall (λ r : oa_row box, is_empty (geometry r) = false) three_squares.
Proof. repeat constructor. Qed.

Lemma builder_then_estimator_witness :
  ∃ oas, neighbours three_squares !! "E00000002" = Some oas ∧
    (∀ m, mean_nearest_other three_tagged "E00000002" oas = Some m →
          oa_nn three_tagged (neighbours three_squares) !! "E00000002"
          = Some (Fin m)) ∧
    (is_Some (mean_nearest_other three_tagged "E00000002" oas) ↔
       filter (λ r, oa11cd r = "E00000002") three_tagged ≠ [] ∧
       2 ≤ length (filter (λ r, oa11cd r ∈ oas) three_tagged)).
Proof.
  apply (builder_then_estimator three_squares three_tagged
           {| OA11CD := "E00000002"; geometry := unit_square 1 |}
           three_squares_have_points).
  unfold three_squares. set_solver.
Defined.

Lemma disjoint_units_no_influence_witness :
  oa_nn (lone_point
           ++ [ {| uprn := pt 3 (9 # 4) (3 # 4); oa11cd := "E00000003" |} ])
        (neighbours three_squares) !! "E00000001"
  = oa_nn lone_point (neighbours three_squares) !! "E00000001".
Proof.
  apply (disjoint_units_no_influence three_squares lone_point
           [ {| uprn := pt 3 (9 # 4) (3 # 4); oa11cd := "E00000003" |} ]
           {| OA11CD := "E00000001"; geometry := unit_square 0 |}
           three_squares_codes_unique three_squares_have_points).
  - unfold three_squares. set_solver.
  - constructor; [|constructor].
    exists {| OA11CD := "E00000003"; geometry := unit_square 2 |}.
    split; [unfold three_squares; set_solver|]. split; reflexivity.
Defined.

End Samples.
